(** * Graph convolution layers of the NORA 2024 GDL practical

    A shallow embedding of the hand-written parts of
    [practicals/3-wednesday/Graph Neural Networks-solution.ipynb]:
    the two [GCNLayer] classes (raw-sum and symmetric-normalised), the dense
    adjacency they are fed with, and the per-graph pooling of the graph-level
    [GNN].

    Tensors are the 2-D float tensors of the notebook with their entries
    idealised as real numbers; a call that raises in Python returns [Err]. *)

From Stdlib Require Import Reals List ZArith Lia Lra Bool PeanoNat Permutation.
Import ListNotations.

Open Scope R_scope.

(** ** Exceptions *)

Inductive exn : Type :=
| ShapeError      (* operand shapes do not fit *)
| SingularMatrix  (* torch.inverse on a singular matrix *)
| IndexError      (* subscript out of range *)
| NarrowError     (* narrow: negative length, or start or end out of range *)
| EmptyList.      (* torch.concat of an empty list *)

Inductive result (A : Type) : Type :=
| Ok  : A -> result A
| Err : exn -> result A.

Arguments Ok {A} _.
Arguments Err {A} _.

Definition bind {A B : Type} (m : result A) (k : A -> result B) : result B :=
  match m with
  | Ok a => k a
  | Err e => Err e
  end.

Definition fmap {A B : Type} (f : A -> B) (m : result A) : result B :=
  match m with
  | Ok a => Ok (f a)
  | Err e => Err e
  end.

Notation "x <- m ;; k" := (bind m (fun x => k))
  (at level 61, m at next level, right associativity).

(** [[f 0; f 1; ...]] evaluated left to right, stopping at the first raise, as
    a Python list comprehension does. *)
Fixpoint mapM {A B : Type} (f : A -> result B) (l : list A) : result (list B) :=
  match l with
  | [] => Ok []
  | a :: l' => b <- f a ;; bs <- mapM f l' ;; Ok (b :: bs)
  end.

(** ** Tensors *)

Definition vec := list R.

(** A 2-D tensor of shape [(length rows, shape1)]. *)
Record tensor : Type := Tensor { shape1 : nat; rows : list vec }.

Definition shape0 (t : tensor) : nat := length (rows t).

(** Every row of a tensor has [shape1] entries. *)
Definition wf (t : tensor) : Prop :=
  Forall (fun r => length r = shape1 t) (rows t).

(** [t[i][j]] *)
Definition get (t : tensor) (i j : nat) : R := nth j (nth i (rows t) []) 0.

Definition rsum (l : list R) : R := fold_right Rplus 0 l.

(** [sum_{j < n} f j] *)
Definition bigsum (n : nat) (f : nat -> R) : R := rsum (map f (seq 0 n)).

(** The tensor of shape [(n, m)] with entry [f i j] at [(i, j)]. *)
Definition tabulate (n m : nat) (f : nat -> nat -> R) : tensor :=
  Tensor m (map (fun i => map (fun j => f i j) (seq 0 m)) (seq 0 n)).

Definition delta (i j : nat) : R := if Nat.eqb i j then 1 else 0.

(** [torch.eye(n)] *)
Definition eye (n : nat) : tensor := tabulate n n delta.

(** [torch.ones(n, m)] *)
Definition ones (n m : nat) : tensor := tabulate n m (fun _ _ => 1).

(** Size of a broadcast dimension: equal sizes, or one of them is 1. *)
Definition broadcast_dim (a b : nat) : result nat :=
  if Nat.eqb a b then Ok a
  else if Nat.eqb a 1 then Ok b
  else if Nat.eqb b 1 then Ok a
  else Err ShapeError.

(** Index into a dimension of size [a] that was broadcast. *)
Definition bidx (a i : nat) : nat := if Nat.eqb a 1 then 0%nat else i.

(** [a + b] on 2-D tensors, with broadcasting. *)
Definition tadd (a b : tensor) : result tensor :=
  n <- broadcast_dim (shape0 a) (shape0 b) ;;
  m <- broadcast_dim (shape1 a) (shape1 b) ;;
  Ok (tabulate n m (fun i j =>
        get a (bidx (shape0 a) i) (bidx (shape1 a) j)
        + get b (bidx (shape0 b) i) (bidx (shape1 b) j))).

(** Sum of row [i]. *)
Definition rowsum (t : tensor) (i : nat) : R :=
  bigsum (shape1 t) (fun j => get t i j).

(** [t.sum(axis=1)]: the vector of row sums. *)
Definition sum_axis1 (t : tensor) : vec :=
  map (rowsum t) (seq 0 (shape0 t)).

(** [t.sum(axis=0)]: the vector of column sums. *)
Definition sum_axis0 (t : tensor) : vec :=
  map (fun j => bigsum (shape0 t) (fun i => get t i j)) (seq 0 (shape1 t)).

(** [torch.diag(v)] for a 1-D [v]. *)
Definition diag (v : vec) : tensor :=
  tabulate (length v) (length v) (fun i j => nth i v 0 * delta i j).

(** [torch.sqrt(t)], elementwise.  [sqrt] is the real square root on the
    non-negative entries that degrees are. *)
Definition tsqrt (t : tensor) : tensor :=
  Tensor (shape1 t) (map (map sqrt) (rows t)).

Definition is_zero (x : R) : bool := if Req_dec_T x 0 then true else false.

(** [torch.inverse(t)] for the diagonal matrices the layer passes to it:
    the reciprocals on the diagonal, and a raise when the matrix is singular,
    that is when a diagonal entry is zero. *)
Definition inverse (t : tensor) : result tensor :=
  if negb (Nat.eqb (shape0 t) (shape1 t)) then Err ShapeError
  else if existsb (fun i => is_zero (get t i i)) (seq 0 (shape0 t))
       then Err SingularMatrix
       else Ok (tabulate (shape0 t) (shape0 t)
                  (fun i j => / get t i i * delta i j)).

(** [torch.matmul(a, b)] on 2-D tensors. *)
Definition matmul (a b : tensor) : result tensor :=
  if Nat.eqb (shape1 a) (shape0 b)
  then Ok (tabulate (shape0 a) (shape1 b)
             (fun i k => bigsum (shape1 a) (fun j => get a i j * get b j k)))
  else Err ShapeError.

(** [t.T] *)
Definition transpose (t : tensor) : tensor :=
  tabulate (shape1 t) (shape0 t) (fun i j => get t j i).

(** ** [nn.Linear] *)

(** [weight] has shape [(out_features, in_features)], [bias] has
    [out_features] entries; both are set at random by the constructor and
    moved by the optimiser, so they are given. *)
Record Linear : Type := mkLinear {
  in_features : nat;
  out_features : nat;
  weight : tensor;
  bias : vec
}.

(** [lin(x) = x @ weight.T + bias] *)
Definition Linear_forward (lin : Linear) (x : tensor) : result tensor :=
  if Nat.eqb (shape1 x) (in_features lin)
  then Ok (tabulate (shape0 x) (out_features lin)
             (fun i o => bigsum (in_features lin)
                           (fun k => get x i k * get (weight lin) o k)
                         + nth o (bias lin) 0))
  else Err ShapeError.

(** ** The raw-sum layer (first [GCNLayer] of the notebook) *)

Module RawSum.

Record GCNLayer : Type := mkGCNLayer {
  input_dim : nat;
  output_dim : nat;
  A : tensor;
  linear : Linear
}.

(** [GCNLayer(input_dim, output_dim, A)]; [W], [b] are the parameters of the
    [nn.Linear(input_dim, output_dim)] it creates. *)
Definition init (input_dim output_dim : nat) (A : tensor)
    (W : tensor) (b : vec) : GCNLayer :=
  mkGCNLayer input_dim output_dim A (mkLinear input_dim output_dim W b).

Definition forward (self : GCNLayer) (x : tensor) : result tensor :=
  x1 <- matmul (A self) x ;;
  Linear_forward (linear self) x1.

End RawSum.

(** ** The symmetric-normalised layer (second [GCNLayer] of the notebook) *)

Module Normalized.

Record GCNLayer : Type := mkGCNLayer {
  input_dim : nat;
  output_dim : nat;
  A : tensor;
  adj_norm : tensor;
  degree : tensor;
  linear : Linear
}.

(** [GCNLayer(input_dim, output_dim, A)].  The body reads the notebook's
    global [adj], here the first argument; of [A] it reads [A.shape[0]]. *)
Definition init (adj : tensor) (input_dim output_dim : nat) (A : tensor)
    (W : tensor) (b : vec) : result GCNLayer :=
  adj_norm0 <- tadd adj (eye (shape0 A)) ;;
  degree <- inverse (tsqrt (diag (sum_axis1 adj))) ;;
  t <- matmul degree adj_norm0 ;;
  adj_norm <- matmul t degree ;;
  Ok (mkGCNLayer input_dim output_dim A adj_norm degree
        (mkLinear input_dim output_dim W b)).

Definition forward (self : GCNLayer) (x : tensor) : result tensor :=
  x1 <- matmul (adj_norm self) x ;;
  Linear_forward (linear self) x1.

End Normalized.

(** ** Dense adjacency *)

Definition edge : Type := (nat * nat)%type.

Definition edge_eqb (e f : edge) : bool :=
  Nat.eqb (fst e) (fst f) && Nat.eqb (snd e) (snd f).

(** [edge_index.max()] of a non-empty edge list. *)
Definition max_index (es : list edge) : nat :=
  fold_right (fun e m => Nat.max (Nat.max (fst e) (snd e)) m) 0%nat es.

(** Number of nodes that [to_dense_adj] infers: the largest index plus one,
    and 0 for an empty edge list. *)
Definition num_nodes (es : list edge) : nat :=
  match es with
  | [] => 0%nat
  | _ => S (max_index es)
  end.

(** [to_dense_adj(edge_index)[0]] of torch_geometric for one graph without
    edge attributes: every edge [(i, j)] of the list scatter-adds a 1 to the
    entry [(i, j)] of a zero matrix. *)
Definition to_dense_adj (es : list edge) : tensor :=
  tabulate (num_nodes es) (num_nodes es)
    (fun i j => rsum (map (fun e => if edge_eqb e (i, j) then 1 else 0) es)).

(** ** Graph-level model: pooling per graph *)

(** [slices[idx]] *)
Definition subscript (slices : list Z) (idx : nat) : result Z :=
  match nth_error slices idx with
  | Some z => Ok z
  | None => Err IndexError
  end.

(** [x.narrow(0, start, length)]: [length] must not be negative, [start] must
    lie in [[-size, size]], a negative [start] counts from the end, and the
    slice must end within the tensor. *)
Definition narrow (x : tensor) (start length : Z) : result tensor :=
  let size := Z.of_nat (shape0 x) in
  if (length <? 0)%Z then Err NarrowError
  else if negb ((- size <=? start)%Z && (start <=? size)%Z) then Err NarrowError
  else
    let start' := if (start <? 0)%Z then (start + size)%Z else start in
    if (size - length <? start')%Z then Err NarrowError
    else Ok (Tensor (shape1 x)
               (firstn (Z.to_nat length) (skipn (Z.to_nat start') (rows x)))).

(** [v.reshape(1, -1)] for a 1-D [v]: one row with the entries of [v], a
    1 x 0 tensor when [v] has no element. *)
Definition reshape_row (v : vec) : result tensor :=
  Ok (Tensor (length v) [v]).

Definition extract (x : tensor) (idx : nat) (slices : list Z) : result tensor :=
  start <- subscript slices idx ;;
  end_ <- subscript slices (idx + 1) ;;
  t <- narrow x start (end_ - start) ;;
  reshape_row (sum_axis0 t).

(** [torch.concat(ts, axis=0)] *)
Definition concat (ts : list tensor) : result tensor :=
  match ts with
  | [] => Err EmptyList
  | t :: ts' =>
      if forallb (fun u => Nat.eqb (shape1 u) (shape1 t)) ts'
      then Ok (Tensor (shape1 t) (flat_map rows ts))
      else Err ShapeError
  end.

(** [torch.concat([extract(x, idx, ptr) for idx in range(len(ptr)-1)], axis=0)] *)
Definition pool (x : tensor) (ptr : list Z) : result tensor :=
  ts <- mapM (fun idx => extract x idx ptr) (seq 0 (length ptr - 1)) ;;
  concat ts.

Definition tmap (f : R -> R) (t : tensor) : tensor :=
  Tensor (shape1 t) (map (map f) (rows t)).

(** [F.relu] *)
Definition relu (x : R) : R := Rmax 0 x.

(** [F.leaky_relu] with its default slope of 0.01 *)
Definition leaky_relu (x : R) : R := Rmax 0 x + / 100 * Rmin 0 x.

Module GraphLevel.

(** [graph_layer] is the library layer ([GCNConv]) the model is built with. *)
Record GNN : Type := mkGNN {
  input_dim : nat;
  output_dim : nat;
  graph_layer : tensor -> list edge -> result tensor;
  linear : Linear
}.

Definition forward (self : GNN) (x : tensor) (edge_index : list edge)
    (ptr : list Z) : result vec :=
  x1 <- graph_layer self x edge_index ;;
  let x2 := tmap relu x1 in
  x3 <- pool x2 ptr ;;
  x4 <- Linear_forward (linear self) x3 ;;
  let x5 := tmap leaky_relu x4 in
  Ok (List.concat (rows x5)).

End GraphLevel.

(** ** The models around the layers *)

(** [F.log_softmax(x, dim=1)]: every row is shifted by the logarithm of the
    sum of its exponentials. *)
Definition log_softmax (x : tensor) : tensor :=
  tabulate (shape0 x) (shape1 x)
    (fun i j => get x i j - ln (bigsum (shape1 x) (fun k => exp (get x i k)))).

(** The baseline [FFNN]: one linear layer and [log_softmax]. *)
Module FFNN.

Record FFNN : Type := mkFFNN { layer_1 : Linear }.

Definition init (input_dim output_dim : nat) (W : tensor) (b : vec) : FFNN :=
  mkFFNN (mkLinear input_dim output_dim W b).

Definition forward (self : FFNN) (x : tensor) : result tensor :=
  x1 <- Linear_forward (layer_1 self) x ;;
  Ok (log_softmax x1).

End FFNN.

(** The [GNN] over the raw-sum layer. *)
Module RawSumGNN.

Record GNN : Type := mkGNN {
  input_dim : nat;
  output_dim : nat;
  layer : RawSum.GCNLayer
}.

Definition init (input_dim output_dim : nat) (A : tensor)
    (W : tensor) (b : vec) : GNN :=
  mkGNN input_dim output_dim (RawSum.init input_dim output_dim A W b).

Definition forward (self : GNN) (x : tensor) : result tensor :=
  x1 <- RawSum.forward (layer self) x ;;
  Ok (log_softmax x1).

End RawSumGNN.

(** The [GNN] over the normalised layer; [adj] is the notebook's global. *)
Module NormalizedGNN.

Record GNN : Type := mkGNN {
  input_dim : nat;
  output_dim : nat;
  layer : Normalized.GCNLayer
}.

Definition init (adj : tensor) (input_dim output_dim : nat) (A : tensor)
    (W : tensor) (b : vec) : result GNN :=
  l <- Normalized.init adj input_dim output_dim A W b ;;
  Ok (mkGNN input_dim output_dim l).

Definition forward (self : GNN) (x : tensor) : result tensor :=
  x1 <- Normalized.forward (layer self) x ;;
  Ok (log_softmax x1).

End NormalizedGNN.

(** The [GNN] over a library layer ([GCNConv], [GATConv],
    [TransformerConv]); its forward pass reads the global [data.edge_index],
    here the first argument. *)
Module LibraryGNN.

Record GNN : Type := mkGNN {
  input_dim : nat;
  output_dim : nat;
  layer : tensor -> list edge -> result tensor
}.

Definition forward (edge_index : list edge) (self : GNN) (x : tensor)
    : result tensor :=
  x1 <- layer self x edge_index ;;
  Ok (log_softmax x1).

End LibraryGNN.

(** ** The bookkeeping of the training loops *)

(** [x[mask]] for a boolean [mask] over the rows. *)
Definition mask_rows (x : tensor) (mask : list bool) : result tensor :=
  if Nat.eqb (length mask) (shape0 x)
  then Ok (Tensor (shape1 x)
             (map fst (filter snd (combine (rows x) mask))))
  else Err IndexError.

(** Index of the first largest entry after position [i], [best] at [besti]
    being the largest so far. *)
Fixpoint argmax_from (best : R) (besti i : nat) (v : vec) : nat :=
  match v with
  | [] => besti
  | y :: v' =>
      if Rlt_dec best y then argmax_from y i (S i) v'
      else argmax_from best besti (S i) v'
  end.

Definition argmax (v : vec) : nat :=
  match v with
  | [] => 0%nat
  | y :: v' => argmax_from y 0 1 v'
  end.

(** [y_hat.data.max(1)[1]]: the index of the first largest entry of every
    row; a reduction over no column raises. *)
Definition max_1_indices (y_hat : tensor) : result (list nat) :=
  if Nat.eqb (shape1 y_hat) 0 then Err IndexError
  else Ok (map argmax (rows y_hat)).

(** [y[mask]] for a 1-D [y] and a boolean [mask]. *)
Definition mask_list (y : list nat) (mask : list bool) : result (list nat) :=
  if Nat.eqb (length mask) (length y)
  then Ok (map fst (filter snd (combine y mask)))
  else Err IndexError.

(** [y_hat.eq(y).sum()]: the number of positions where the two index vectors
    agree, a vector of length 1 being broadcast. *)
Definition num_correct (y_hat y : list nat) : result nat :=
  n <- broadcast_dim (length y_hat) (length y) ;;
  Ok (length (filter (fun i => Nat.eqb (nth (bidx (length y_hat) i) y_hat 0%nat)
                                       (nth (bidx (length y) i) y 0%nat))
                     (seq 0 n))).

(** [100.0 * (num_correct / num_total)] with [num_total = len(y)]. *)
Definition accuracy (y_hat y : list nat) : result R :=
  c <- num_correct y_hat y ;;
  Ok (100 * (INR c / INR (length y))).

(** One evaluation step of the node-level loops on the output [out] of the
    model: [out[val_mask].data.max(1)[1]] against [valid_y = y[val_mask]]. *)
Definition val_accuracy_step (out : tensor) (val_mask : list bool)
    (y : list nat) : result R :=
  valid_y <- mask_list y val_mask ;;
  y_hat <- mask_rows out val_mask ;;
  y_hat <- max_1_indices y_hat ;;
  accuracy y_hat valid_y.

(** ** Vocabulary of the statements *)

(** The indices of the rows that a boolean [mask] keeps, in order. *)
Definition selected (mask : list bool) : list nat :=
  filter (fun i => nth i mask false) (seq 0 (length mask)).

Definition square (n : nat) (t : tensor) : Prop :=
  shape0 t = n /\ shape1 t = n.

Definition symmetric (t : tensor) : Prop :=
  forall i j, (i < shape0 t)%nat -> (j < shape0 t)%nat ->
    get t i j = get t j i.

(** Entries of an adjacency matrix are edge counts. *)
Definition nonneg (t : tensor) : Prop :=
  forall i j, (i < shape0 t)%nat -> (j < shape1 t)%nat -> 0 <= get t i j.

Definition zero_one (t : tensor) : Prop :=
  forall i j, (i < shape0 t)%nat -> (j < shape1 t)%nat ->
    get t i j = 0 \/ get t i j = 1.

(** Some degree is zero: [diag(adj.sum(axis=1))] has no inverse. *)
Definition singular (n : nat) (a : tensor) : bool :=
  existsb (fun i => is_zero (sqrt (rowsum a i))) (seq 0 n).

(** Two connected nodes. *)
Definition pair_graph : tensor := Tensor 2 [[0; 1]; [1; 0]].

(** Both directions of every edge, the way an undirected graph is stored. *)
Definition undirected (es : list edge) : list edge :=
  es ++ map (fun e => (snd e, fst e)) es.

(** The ring on five nodes. *)
Definition ring_edges : list edge :=
  [(0, 1); (1, 2); (2, 3); (3, 4); (4, 0)]%nat.

Definition ring_adj : tensor := to_dense_adj (undirected ring_edges).

(** The 1 x 1 identity weight and the zero bias. *)
Definition W1 : tensor := Tensor 1 [[1]].
Definition b0 : vec := [0].

(** A column of [n] copies of [c]. *)
Definition column (n : nat) (c : R) : tensor := Tensor 1 (repeat [c] n).

(** Nodes 1 and 2 connected, node 0 without any edge. *)
Definition isolated_graph : tensor := to_dense_adj [(1, 2); (2, 1)]%nat.

(** [h + b] for a 1-D [b], which is added to every row. *)
Definition add_bias (h : tensor) (b : vec) : tensor :=
  tabulate (shape0 h) (shape1 h) (fun i o => get h i o + nth o b 0).

(** The nodes [j] with an edge from [i] in [a]. *)
Definition neighbors (a : tensor) (i : nat) : list nat :=
  filter (fun j => negb (is_zero (get a i j))) (seq 0 (shape1 a)).

(** Elementwise sum of the rows [a], ..., [b - 1] of [x]. *)
Definition rows_sum (x : tensor) (a b : nat) : vec :=
  map (fun j => rsum (map (fun i => get x i j) (seq a (b - a))))
      (seq 0 (shape1 x)).

(** [ptr[k]] *)
Definition ptr_at (ptr : list Z) (k : nat) : Z := nth k ptr 0%Z.

(** Five nodes with one feature each. *)
Definition x5 : tensor := Tensor 1 [[1]; [2]; [3]; [4]; [5]].

(** A boundary array that decreases somewhere, or has an entry above the
    number [n] of rows or below [-n]. *)
Definition bad_ptr (n : nat) (ptr : list Z) : Prop :=
  (exists k, (S k < length ptr)%nat /\ (ptr_at ptr (S k) < ptr_at ptr k)%Z)
  \/ (exists k, (k < length ptr)%nat
               /\ (Z.of_nat n < ptr_at ptr k \/ ptr_at ptr k < - Z.of_nat n)%Z).

(** A boundary array of [B] graphs over [n] rows: [B + 1] entries that
    start at 0, never decrease and end at [n]. *)
Definition valid_ptr (n B : nat) (ptr : list Z) : Prop :=
  length ptr = S B
  /\ (forall k, (k < B)%nat -> (ptr_at ptr k <= ptr_at ptr (S k))%Z)
  /\ ptr_at ptr 0 = 0%Z
  /\ ptr_at ptr B = Z.of_nat n.

(** The permutation [p] keeps every node within its graph. *)
Definition within_graphs (B : nat) (ptr : list Z) (p : list nat) : Prop :=
  forall k i, (k < B)%nat ->
    (ptr_at ptr k <= Z.of_nat i < ptr_at ptr (S k))%Z ->
    (ptr_at ptr k <= Z.of_nat (nth i p 0%nat) < ptr_at ptr (S k))%Z.

(** All entries of all rows are non-negative. *)
Definition rows_nonneg (t : tensor) : Prop :=
  Forall (Forall (fun y => 0 <= y)) (rows t).

(** [GNN(input_dim, mid_dim, output_dim, layer)] of the graph-level model;
    [graph_layer] is the layer that [layer(input_dim, mid_dim)] builds and
    [W], [b] the parameters of [nn.Linear(mid_dim, output_dim)]. *)
Definition GraphLevel_init (input_dim mid_dim output_dim : nat)
    (graph_layer : tensor -> list edge -> result tensor)
    (W : tensor) (b : vec) : GraphLevel.GNN :=
  GraphLevel.mkGNN input_dim output_dim graph_layer
    (mkLinear mid_dim output_dim W b).

(** The normalisation the notebook's text describes: with [A~ = A + I] and
    [D~] the degree matrix of [A~], the matrix [D~^(-1/2) A~ D~^(-1/2)]. *)
Definition kipf_welling (a : tensor) : result tensor :=
  a_tilde <- tadd a (eye (shape0 a)) ;;
  d <- inverse (tsqrt (diag (sum_axis1 a_tilde))) ;;
  t <- matmul d a_tilde ;;
  matmul t d.

(** A permutation of the nodes [0 .. n-1], node [i] being sent to [nth i p]. *)
Definition is_perm (n : nat) (p : list nat) : Prop := Permutation p (seq 0 n).

(** The permutation matrix [P]: row [i] is the unit vector of [nth i p]. *)
Definition perm_matrix (p : list nat) : tensor :=
  tabulate (length p) (length p) (fun i j => delta (nth i p 0%nat) j).

(** [P X]: row [i] is row [nth i p] of [X]. *)
Definition permute_rows (p : list nat) (x : tensor) : tensor :=
  tabulate (length p) (shape1 x) (fun i k => get x (nth i p 0%nat) k).

(** [P A P^T] *)
Definition permute (p : list nat) (a : tensor) : tensor :=
  tabulate (length p) (length p)
    (fun i j => get a (nth i p 0%nat) (nth j p 0%nat)).

(** Output of the normalised layer built for the graph [a] (passed as [A]
    and bound to the global [adj], as the notebook does) on features [x]. *)
Definition normalized_output (a : tensor) (input_dim output_dim : nat)
    (W : tensor) (b : vec) (x : tensor) : result tensor :=
  layer <- Normalized.init a input_dim output_dim a W b ;;
  Normalized.forward layer x.

(** * Properties *)

(** ** Tactics for concrete graphs *)

(** Case analysis on an index below a literal bound. *)
Ltac index_cases i := repeat (destruct i as [|i]; try lia).

Ltac eval_tensor :=
  cbv [ring_adj to_dense_adj undirected ring_edges num_nodes pair_graph
       isolated_graph
       tabulate get rows shape0 shape1 rowsum bigsum rsum delta edge_eqb
       ones column repeat W1 b0
       max_index map seq fold_right nth app length fst snd andb Nat.eqb Nat.max].

(** Splits an equation between evaluated tensors into its entries. *)
Ltac entrywise :=
  repeat match goal with
         | |- Ok _ = Ok _ => apply f_equal
         | |- Tensor _ _ = Tensor _ _ => apply f_equal
         | |- cons _ _ = cons _ _ => apply f_equal2
         | |- nil = nil => reflexivity
         end.

(** Evaluates the layers on literal tensors, leaving the real arithmetic. *)
Ltac eval_layer :=
  cbv [RawSum.forward RawSum.init RawSum.A RawSum.linear
       Normalized.forward Normalized.adj_norm Normalized.linear
       matmul Linear_forward bind fmap
       in_features out_features weight bias
       ring_adj to_dense_adj undirected ring_edges num_nodes pair_graph
       isolated_graph
       tabulate get rows shape0 shape1 rowsum bigsum rsum delta edge_eqb
       ones column repeat W1 b0
       max_index map seq fold_right nth app length fst snd andb Nat.eqb Nat.max].

(** Every sum under a square root in the goal is the degree 2. *)
Ltac degrees_are_2 :=
  repeat match goal with
         | |- context [sqrt ?x] =>
             lazymatch x with
             | 2 => fail
             | _ => replace x with 2 by lra
             end
         end.

(** ** Tabulated tensors and finite sums *)

Lemma nth_map_seq {T : Type} (f : nat -> T) (n i : nat) (d : T) :
  (i < n)%nat -> nth i (map f (seq 0 n)) d = f i.
Proof.
  intros Hi.
  rewrite (nth_indep _ d (f 0%nat)) by (rewrite length_map, length_seq; exact Hi).
  rewrite map_nth, seq_nth by exact Hi. reflexivity.
Qed.

Lemma shape0_tabulate n m f : shape0 (tabulate n m f) = n.
Proof. unfold shape0, tabulate; simpl. now rewrite length_map, length_seq. Qed.

Lemma shape1_tabulate n m f : shape1 (tabulate n m f) = m.
Proof. reflexivity. Qed.

Lemma get_tabulate n m f i j :
  (i < n)%nat -> (j < m)%nat -> get (tabulate n m f) i j = f i j.
Proof.
  intros Hi Hj. unfold get, tabulate; simpl.
  rewrite (nth_map_seq (fun i => map (fun j => f i j) (seq 0 m))) by exact Hi.
  now rewrite nth_map_seq.
Qed.

Lemma wf_tabulate n m f : wf (tabulate n m f).
Proof.
  unfold wf, tabulate; simpl. apply Forall_forall. intros r Hr.
  apply in_map_iff in Hr. destruct Hr as [i [<- _]].
  now rewrite length_map, length_seq.
Qed.

Lemma tabulate_ext n m f g :
  (forall i j, (i < n)%nat -> (j < m)%nat -> f i j = g i j) ->
  tabulate n m f = tabulate n m g.
Proof.
  intros H. unfold tabulate. f_equal.
  apply map_ext_in. intros i Hi. apply in_seq in Hi.
  apply map_ext_in. intros j Hj. apply in_seq in Hj.
  apply H; lia.
Qed.

Lemma bigsum_ext n f g :
  (forall j, (j < n)%nat -> f j = g j) -> bigsum n f = bigsum n g.
Proof.
  intros H. unfold bigsum. f_equal. apply map_ext_in.
  intros j Hj. apply in_seq in Hj. apply H; lia.
Qed.

Lemma bigsum_S n f : bigsum (S n) f = bigsum n f + f n.
Proof.
  unfold bigsum. rewrite seq_S, map_app. simpl.
  induction (map f (seq 0 n)) as [|x l IH]; simpl.
  - lra.
  - unfold rsum in *. simpl in *. rewrite IH. lra.
Qed.

Lemma bigsum_0 n : bigsum n (fun _ => 0) = 0.
Proof. induction n as [|n IH]; [reflexivity|]. rewrite bigsum_S, IH. lra. Qed.

Lemma bigsum_scal_l n c f : bigsum n (fun j => c * f j) = c * bigsum n f.
Proof.
  induction n as [|n IH]; [unfold bigsum; simpl; lra|].
  rewrite !bigsum_S, IH. lra.
Qed.

Lemma bigsum_scal_r n c f : bigsum n (fun j => f j * c) = bigsum n f * c.
Proof.
  induction n as [|n IH]; [unfold bigsum; simpl; lra|].
  rewrite !bigsum_S, IH. lra.
Qed.

Lemma bigsum_plus n f g :
  bigsum n (fun j => f j + g j) = bigsum n f + bigsum n g.
Proof.
  induction n as [|n IH]; [unfold bigsum; simpl; lra|].
  rewrite !bigsum_S, IH. lra.
Qed.

(** A sum with a single non-zero term. *)
Lemma bigsum_delta_r n k f :
  (k < n)%nat -> bigsum n (fun j => f j * delta j k) = f k.
Proof.
  induction n as [|n IH]; intros Hk; [lia|].
  rewrite bigsum_S. destruct (Nat.eq_dec k n) as [->|Hne].
  - unfold delta at 2. rewrite Nat.eqb_refl.
    rewrite (bigsum_ext n _ (fun _ => 0)), bigsum_0; [lra|].
    intros j Hj. unfold delta. destruct (Nat.eqb_spec j n); [lia|lra].
  - rewrite IH by lia. unfold delta. destruct (Nat.eqb_spec n k); [lia|lra].
Qed.

Lemma bigsum_delta_l n k f :
  (k < n)%nat -> bigsum n (fun j => delta k j * f j) = f k.
Proof.
  intros Hk. rewrite <- (bigsum_delta_r n k f Hk). apply bigsum_ext.
  intros j _. unfold delta. rewrite (Nat.eqb_sym k j). lra.
Qed.

Lemma rsum_Permutation l l' : Permutation l l' -> rsum l = rsum l'.
Proof.
  induction 1; simpl; lra.
Qed.

Lemma map_nth_seq (p : list nat) :
  map (fun j => nth j p 0%nat) (seq 0 (length p)) = p.
Proof.
  apply nth_ext with (d := 0%nat) (d' := 0%nat).
  - now rewrite length_map, length_seq.
  - intros i Hi. rewrite length_map, length_seq in Hi.
    now rewrite (nth_map_seq (fun j => nth j p 0%nat)).
Qed.

(** Re-indexing a finite sum along a permutation of its index range. *)
Lemma bigsum_reindex n p f :
  Permutation p (seq 0 n) ->
  bigsum n (fun j => f (nth j p 0%nat)) = bigsum n f.
Proof.
  intros Hp. unfold bigsum.
  assert (Hlen : length p = n).
  { rewrite (Permutation_length Hp). apply length_seq. }
  rewrite <- (map_map (fun j => nth j p 0%nat) f).
  rewrite <- Hlen at 1. rewrite map_nth_seq.
  apply rsum_Permutation, Permutation_map, Hp.
Qed.

(** ** Elementary tensor operations *)

Lemma tsqrt_tabulate n m f :
  tsqrt (tabulate n m f) = tabulate n m (fun i j => sqrt (f i j)).
Proof.
  unfold tsqrt, tabulate; simpl. f_equal. rewrite map_map.
  apply map_ext. intros i. now rewrite map_map.
Qed.

Lemma get_eye n i j : (i < n)%nat -> (j < n)%nat -> get (eye n) i j = delta i j.
Proof. intros Hi Hj. unfold eye. now rewrite get_tabulate. Qed.

Lemma bidx_lt a i : (i < a)%nat -> bidx a i = i.
Proof. unfold bidx. destruct (Nat.eqb_spec a 1); lia. Qed.

Lemma broadcast_dim_same a : broadcast_dim a a = Ok a.
Proof. unfold broadcast_dim. now rewrite Nat.eqb_refl. Qed.

(** Adding the identity to a square matrix. *)
Lemma tadd_eye n a :
  square n a ->
  tadd a (eye n) = Ok (tabulate n n (fun i j => get a i j + delta i j)).
Proof.
  intros [H0 H1]. unfold tadd.
  assert (E0 : shape0 (eye n) = n) by apply shape0_tabulate.
  assert (E1 : shape1 (eye n) = n) by reflexivity.
  rewrite H0, H1, E0, E1, broadcast_dim_same. simpl. f_equal.
  apply tabulate_ext. intros i j Hi Hj.
  rewrite !bidx_lt by lia. now rewrite get_eye.
Qed.

Lemma length_sum_axis1 t : length (sum_axis1 t) = shape0 t.
Proof. unfold sum_axis1. now rewrite length_map, length_seq. Qed.

Lemma nth_sum_axis1 t i :
  (i < shape0 t)%nat -> nth i (sum_axis1 t) 0 = rowsum t i.
Proof. intros Hi. unfold sum_axis1. now rewrite nth_map_seq. Qed.

Lemma existsb_ext_in {T : Type} (f g : T -> bool) l :
  (forall x, In x l -> f x = g x) -> existsb f l = existsb g l.
Proof.
  induction l as [|a l IH]; intros H; simpl; [reflexivity|].
  rewrite (H a) by now left. rewrite IH; [reflexivity|].
  intros x Hx. apply H. now right.
Qed.

(** The inverse square root of a diagonal matrix, as the layer computes it. *)
Lemma inverse_sqrt_diag n v :
  length v = n ->
  inverse (tsqrt (diag v))
  = if existsb (fun i => is_zero (sqrt (nth i v 0))) (seq 0 n)
    then Err SingularMatrix
    else Ok (tabulate n n (fun i j => / sqrt (nth i v 0) * delta i j)).
Proof.
  intros Hv. unfold diag. rewrite Hv, tsqrt_tabulate.
  unfold inverse. rewrite shape0_tabulate, shape1_tabulate, Nat.eqb_refl. simpl.
  assert (Hd : forall i, (i < n)%nat ->
            get (tabulate n n (fun i j => sqrt (nth i v 0 * delta i j))) i i
            = sqrt (nth i v 0)).
  { intros i Hi. rewrite get_tabulate by exact Hi.
    unfold delta. rewrite Nat.eqb_refl. f_equal. lra. }
  rewrite (existsb_ext_in _ (fun i => is_zero (sqrt (nth i v 0)))).
  2:{ intros i Hi. apply in_seq in Hi. rewrite Hd by lia. reflexivity. }
  destruct (existsb _ _); [reflexivity|]. f_equal.
  apply tabulate_ext. intros i j Hi Hj. now rewrite Hd.
Qed.

(** [diag u . M . diag u] scales entry [(i, j)] by [u i] and [u j]. *)
Lemma matmul_diag_both n u f :
  (t <- matmul (tabulate n n (fun i j => u i * delta i j)) (tabulate n n f) ;;
   matmul t (tabulate n n (fun i j => u i * delta i j)))
  = Ok (tabulate n n (fun i j => u i * f i j * u j)).
Proof.
  unfold matmul at 1. rewrite shape0_tabulate, !shape1_tabulate, Nat.eqb_refl.
  simpl. unfold matmul. rewrite !shape0_tabulate, !shape1_tabulate, Nat.eqb_refl.
  f_equal. apply tabulate_ext. intros i k Hi Hk.
  rewrite (bigsum_ext n _ (fun j => (u i * f i j * u k) * delta j k)).
  - now rewrite (bigsum_delta_r n k (fun j => u i * f i j * u k)).
  - intros j Hj. rewrite !get_tabulate by lia.
    rewrite (bigsum_ext n _ (fun l => delta i l * (u i * f l j))).
    + rewrite (bigsum_delta_l n i (fun l => u i * f l j)) by lia.
      unfold delta. destruct (Nat.eqb_spec j k) as [->|]; lra.
    + intros l Hl. rewrite !get_tabulate by lia. lra.
Qed.

(** The model of [torch.inverse] on a diagonal matrix: what it returns is a
    two-sided inverse, and it raises only where no inverse exists. *)
Lemma inverse_diag_correct v t :
  inverse (diag v) = Ok t ->
  matmul (diag v) t = Ok (eye (length v))
  /\ matmul t (diag v) = Ok (eye (length v)).
Proof.
  set (n := length v). unfold inverse, diag. fold n.
  rewrite shape0_tabulate, shape1_tabulate, Nat.eqb_refl. cbn [negb].
  destruct (existsb _ _) eqn:E; [discriminate|].
  intros Ht. injection Ht as <-.
  assert (Hnz : forall i, (i < n)%nat -> nth i v 0 <> 0).
  { intros i Hi Hz.
    assert (Hex : existsb (fun i => is_zero
                     (get (tabulate n n (fun i j => nth i v 0 * delta i j)) i i))
                    (seq 0 n) = true).
    { apply existsb_exists. exists i. split; [apply in_seq; lia|].
      rewrite get_tabulate by exact Hi. rewrite Hz. unfold is_zero.
      destruct (Req_dec_T (0 * delta i i) 0) as [_|N]; [reflexivity|].
      elim N. lra. }
    rewrite E in Hex. discriminate. }
  assert (Hinv : tabulate n n
                   (fun i j => / get (tabulate n n
                                        (fun i j => nth i v 0 * delta i j)) i i
                               * delta i j)
                 = tabulate n n (fun i j => / nth i v 0 * delta i j)).
  { apply tabulate_ext. intros i j Hi Hj. rewrite get_tabulate by exact Hi.
    unfold delta at 1. rewrite Nat.eqb_refl. now rewrite Rmult_1_r. }
  rewrite Hinv. unfold matmul.
  rewrite !shape0_tabulate, !shape1_tabulate, Nat.eqb_refl. unfold eye.
  split; f_equal; apply tabulate_ext; intros i k Hi Hk.
  - rewrite (bigsum_ext n _ (fun j => (nth i v 0 * delta i j * / nth k v 0)
                                      * delta j k)).
    + rewrite (bigsum_delta_r n k
                 (fun j => nth i v 0 * delta i j * / nth k v 0) Hk).
      unfold delta. destruct (Nat.eqb_spec i k) as [->|]; [|lra].
      field. now apply Hnz.
    + intros j Hj. rewrite !get_tabulate by lia.
      unfold delta. destruct (Nat.eqb_spec j k) as [->|]; lra.
  - rewrite (bigsum_ext n _ (fun j => (/ nth i v 0 * delta i j * nth k v 0)
                                      * delta j k)).
    + rewrite (bigsum_delta_r n k
                 (fun j => / nth i v 0 * delta i j * nth k v 0) Hk).
      unfold delta. destruct (Nat.eqb_spec i k) as [->|]; [|lra].
      field. now apply Hnz.
    + intros j Hj. rewrite !get_tabulate by lia.
      unfold delta. destruct (Nat.eqb_spec j k) as [->|]; lra.
Qed.

Lemma inverse_diag_singular v m :
  inverse (diag v) = Err SingularMatrix ->
  matmul (diag v) m <> Ok (eye (length v)).
Proof.
  set (n := length v). unfold inverse, diag. fold n.
  rewrite shape0_tabulate, shape1_tabulate, Nat.eqb_refl. cbn [negb].
  destruct (existsb _ _) eqn:E; [|discriminate]. intros _.
  apply existsb_exists in E. destruct E as [i [Hi Hz]]. apply in_seq in Hi.
  rewrite get_tabulate in Hz by lia.
  unfold is_zero in Hz. destruct (Req_dec_T _ 0) as [Z|]; [|discriminate].
  unfold delta in Z. rewrite Nat.eqb_refl in Z.
  assert (Hv : nth i v 0 = 0) by lra.
  unfold matmul. rewrite shape0_tabulate, shape1_tabulate.
  destruct (Nat.eqb n (shape0 m)); [|discriminate].
  intros Heq.
  assert (Hm : shape1 m = n).
  { injection Heq as Heq _. exact Heq. }
  rewrite Hm in Heq.
  assert (Hg : forall t, Ok t = Ok (eye n) -> get t i i = get (eye n) i i).
  { intros t Ht. injection Ht as ->. reflexivity. }
  specialize (Hg _ Heq).
  rewrite get_eye in Hg by lia. rewrite get_tabulate in Hg by lia.
  rewrite (bigsum_ext n _ (fun _ => 0)) in Hg.
  - rewrite bigsum_0 in Hg. unfold delta in Hg. rewrite Nat.eqb_refl in Hg. lra.
  - intros j Hj. rewrite get_tabulate by lia. rewrite Hv. lra.
Qed.

(** ** The normalised layer in closed form *)

Lemma Normalized_init_char n adj input_dim output_dim A W b :
  square n adj -> shape0 A = n ->
  Normalized.init adj input_dim output_dim A W b
  = if singular n adj then Err SingularMatrix
    else Ok (Normalized.mkGCNLayer input_dim output_dim A
               (tabulate n n (fun i j => / sqrt (rowsum adj i)
                                         * (get adj i j + delta i j)
                                         * / sqrt (rowsum adj j)))
               (tabulate n n (fun i j => / sqrt (rowsum adj i) * delta i j))
               (mkLinear input_dim output_dim W b)).
Proof.
  intros Hsq HA. unfold Normalized.init. rewrite HA, (tadd_eye n adj Hsq).
  cbn [bind]. rewrite (inverse_sqrt_diag n).
  2:{ rewrite length_sum_axis1. apply Hsq. }
  unfold singular.
  rewrite (existsb_ext_in _ (fun i => is_zero (sqrt (rowsum adj i)))).
  2:{ intros i Hi. apply in_seq in Hi. rewrite nth_sum_axis1; [reflexivity|].
      destruct Hsq as [-> _]. lia. }
  destruct (existsb _ _); [reflexivity|]. cbn [bind].
  assert (Hdeg : tabulate n n (fun i j => / sqrt (nth i (sum_axis1 adj) 0) * delta i j)
                 = tabulate n n (fun i j => / sqrt (rowsum adj i) * delta i j)).
  { apply tabulate_ext. intros i j Hi Hj. rewrite nth_sum_axis1; [reflexivity|].
    destruct Hsq as [-> _]. lia. }
  rewrite Hdeg.
  pose proof (matmul_diag_both n (fun i => / sqrt (rowsum adj i))
                (fun i j => get adj i j + delta i j)) as Hm.
  destruct (matmul _ _) as [t|e]; cbn [bind] in *; [|discriminate].
  rewrite Hm. reflexivity.
Qed.

Lemma is_zero_sqrt_pos x : 0 < x -> is_zero (sqrt x) = false.
Proof.
  intros Hx. unfold is_zero. destruct (Req_dec_T (sqrt x) 0) as [E|_].
  - pose proof (sqrt_lt_R0 x Hx). lra.
  - reflexivity.
Qed.

Lemma is_zero_sqrt_0 x : x = 0 -> is_zero (sqrt x) = true.
Proof.
  intros ->. unfold is_zero. rewrite sqrt_0.
  destruct (Req_dec_T 0 0); [reflexivity|contradiction].
Qed.

Lemma singular_false n a :
  (forall i, (i < n)%nat -> 0 < rowsum a i) -> singular n a = false.
Proof.
  intros H. unfold singular.
  destruct (existsb _ _) eqn:E; [|reflexivity].
  apply existsb_exists in E. destruct E as [i [Hi Hz]].
  apply in_seq in Hi. rewrite is_zero_sqrt_pos in Hz by (apply H; lia).
  discriminate.
Qed.

Lemma singular_true n a i :
  (i < n)%nat -> rowsum a i = 0 -> singular n a = true.
Proof.
  intros Hi Hz. unfold singular. apply existsb_exists.
  exists i. split; [apply in_seq; lia|]. now apply is_zero_sqrt_0.
Qed.

Lemma bigsum_nonneg n f :
  (forall j, (j < n)%nat -> 0 <= f j) -> 0 <= bigsum n f.
Proof.
  induction n as [|n IH]; intros H; [unfold bigsum; simpl; lra|].
  rewrite bigsum_S. pose proof (H n (Nat.lt_succ_diag_r n)).
  assert (0 <= bigsum n f) by (apply IH; intros; apply H; lia). lra.
Qed.

Lemma bigsum_ge_term n f k :
  (forall j, (j < n)%nat -> 0 <= f j) -> (k < n)%nat -> f k <= bigsum n f.
Proof.
  induction n as [|n IH]; intros H Hk; [lia|].
  rewrite bigsum_S. pose proof (H n (Nat.lt_succ_diag_r n)).
  assert (0 <= bigsum n f) by (apply bigsum_nonneg; intros; apply H; lia).
  destruct (Nat.eq_dec k n) as [->|Hne]; [lra|].
  assert (f k <= bigsum n f) by (apply IH; [intros; apply H|]; lia). lra.
Qed.

Lemma zero_one_nonneg a : zero_one a -> nonneg a.
Proof. intros H i j Hi Hj. destruct (H i j Hi Hj) as [-> | ->]; lra. Qed.

(** A node with a neighbour has a positive degree. *)
Lemma rowsum_pos n a i :
  square n a -> nonneg a -> (i < n)%nat ->
  (exists j, (j < n)%nat /\ 0 < get a i j) -> 0 < rowsum a i.
Proof.
  intros [H0 H1] Hnn Hi [j [Hj Hpos]]. unfold rowsum. rewrite H1.
  apply Rlt_le_trans with (get a i j); [exact Hpos|].
  apply (bigsum_ge_term n (fun j => get a i j)); [|exact Hj].
  intros l Hl. apply Hnn; lia.
Qed.

(** ** Symmetry of the normalised adjacency *)

(** C8.  For a symmetric 0/1 adjacency matrix, whenever the constructor of the
    normalised layer returns a layer, its [adj_norm] is a symmetric n x n
    matrix; and it does return one when every node has a neighbour. *)
Theorem adj_norm_symmetric n a input_dim output_dim W b :
  square n a -> zero_one a -> symmetric a ->
  (forall layer,
      Normalized.init a input_dim output_dim a W b = Ok layer ->
      square n (Normalized.adj_norm layer)
      /\ symmetric (Normalized.adj_norm layer))
  /\ ((forall i, (i < n)%nat -> exists j, (j < n)%nat /\ get a i j = 1) ->
      exists layer, Normalized.init a input_dim output_dim a W b = Ok layer).
Proof.
  intros Hsq H01 Hsym.
  pose proof (Normalized_init_char n a input_dim output_dim a W b Hsq (proj1 Hsq))
    as Hc.
  split.
  - intros layer Hl. rewrite Hc in Hl.
    destruct (singular n a); [discriminate|].
    injection Hl as <-. cbn [Normalized.adj_norm]. split.
    + split; [apply shape0_tabulate|reflexivity].
    + intros i j Hi Hj. rewrite shape0_tabulate in Hi, Hj.
      rewrite !get_tabulate by assumption.
      destruct Hsq as [H0 H1].
      rewrite (Hsym i j) by (rewrite H0; assumption).
      unfold delta. rewrite (Nat.eqb_sym i j). lra.
  - intros Hnb. rewrite Hc, singular_false; [eauto|].
    intros i Hi. apply (rowsum_pos n); auto using zero_one_nonneg.
    destruct (Hnb i Hi) as [j [Hj E]]. exists j. split; [exact Hj|]. rewrite E. lra.
Qed.

Lemma adj_norm_symmetric_witness :
  (forall layer,
      Normalized.init pair_graph 1 1 pair_graph (Tensor 1 [[1]]) [0] = Ok layer ->
      square 2 (Normalized.adj_norm layer)
      /\ symmetric (Normalized.adj_norm layer))
  /\ ((forall i, (i < 2)%nat -> exists j, (j < 2)%nat /\ get pair_graph i j = 1) ->
      exists layer,
        Normalized.init pair_graph 1 1 pair_graph (Tensor 1 [[1]]) [0] = Ok layer).
Proof.
  apply (adj_norm_symmetric 2 pair_graph 1 1 (Tensor 1 [[1]]) [0]).
  - split; reflexivity.
  - intros i j Hi Hj. change (shape0 pair_graph) with 2%nat in Hi.
    change (shape1 pair_graph) with 2%nat in Hj.
    destruct i as [|[|i]]; destruct j as [|[|j]]; try lia;
      cbv [get pair_graph rows nth]; auto.
  - intros i j Hi Hj. change (shape0 pair_graph) with 2%nat in Hi, Hj.
    destruct i as [|[|i]]; destruct j as [|[|j]]; try lia; reflexivity.
Defined.

(** ** Permutations of the nodes *)

Lemma existsb_Permutation {T : Type} (f : T -> bool) l l' :
  Permutation l l' -> existsb f l = existsb f l'.
Proof.
  induction 1; simpl.
  - reflexivity.
  - now rewrite IHPermutation.
  - destruct (f x), (f y); reflexivity.
  - congruence.
Qed.

Lemma get_permute p a i j :
  (i < length p)%nat -> (j < length p)%nat ->
  get (permute p a) i j = get a (nth i p 0%nat) (nth j p 0%nat).
Proof. intros Hi Hj. unfold permute. now rewrite get_tabulate. Qed.

Lemma get_permute_rows p x i k :
  (i < length p)%nat -> (k < shape1 x)%nat ->
  get (permute_rows p x) i k = get x (nth i p 0%nat) k.
Proof. intros Hi Hk. unfold permute_rows. now rewrite get_tabulate. Qed.

Lemma shape0_permute_rows p x : shape0 (permute_rows p x) = length p.
Proof. apply shape0_tabulate. Qed.

Section Permuted.

Variables (n : nat) (p : list nat).
Hypothesis Hp : is_perm n p.

Lemma is_perm_length : length p = n.
Proof. rewrite (Permutation_length Hp). apply length_seq. Qed.

Lemma is_perm_lt i : (i < n)%nat -> (nth i p 0 < n)%nat.
Proof.
  intros Hi. assert (Hin : In (nth i p 0%nat) p).
  { apply nth_In. now rewrite is_perm_length. }
  apply (Permutation_in _ Hp), in_seq in Hin. lia.
Qed.

Lemma is_perm_inj i j :
  (i < n)%nat -> (j < n)%nat -> nth i p 0%nat = nth j p 0%nat -> i = j.
Proof.
  intros Hi Hj E.
  assert (Hnd : NoDup p).
  { apply (Permutation_NoDup (Permutation_sym Hp)), seq_NoDup. }
  rewrite <- is_perm_length in Hi, Hj.
  exact (proj1 (NoDup_nth p 0%nat) Hnd i j Hi Hj E).
Qed.

Lemma delta_perm i j :
  (i < n)%nat -> (j < n)%nat ->
  delta (nth i p 0%nat) (nth j p 0%nat) = delta i j.
Proof.
  intros Hi Hj. unfold delta.
  destruct (Nat.eqb_spec i j) as [->|Hne].
  - now rewrite Nat.eqb_refl.
  - destruct (Nat.eqb_spec (nth i p 0%nat) (nth j p 0%nat)) as [E|]; [|reflexivity].
    elim Hne. exact (is_perm_inj i j Hi Hj E).
Qed.

Lemma existsb_reindex (f : nat -> bool) :
  existsb (fun i => f (nth i p 0%nat)) (seq 0 n) = existsb f (seq 0 n).
Proof.
  transitivity (existsb f (map (fun j => nth j p 0%nat) (seq 0 n))).
  - induction (seq 0 n) as [|a l IH]; simpl; [reflexivity|]. now rewrite IH.
  - rewrite <- is_perm_length at 1. rewrite map_nth_seq.
    now apply existsb_Permutation.
Qed.

Lemma square_permute a : square n (permute p a).
Proof.
  unfold permute, square.
  rewrite shape0_tabulate, shape1_tabulate. now rewrite is_perm_length.
Qed.

(** The degree of node [i] of the permuted graph is that of node [nth i p]. *)
Lemma rowsum_permute a i :
  square n a -> (i < n)%nat ->
  rowsum (permute p a) i = rowsum a (nth i p 0%nat).
Proof.
  intros [H0 H1] Hi. unfold rowsum, permute.
  rewrite shape1_tabulate, H1, is_perm_length.
  rewrite <- (bigsum_reindex n p (fun j => get a (nth i p 0%nat) j) Hp).
  apply bigsum_ext. intros j Hj. now rewrite get_tabulate.
Qed.

Lemma singular_permute a :
  square n a -> singular n (permute p a) = singular n a.
Proof.
  intros Hsq. unfold singular.
  rewrite <- (existsb_reindex (fun i => is_zero (sqrt (rowsum a i)))).
  apply existsb_ext_in. intros i Hi. apply in_seq in Hi.
  rewrite rowsum_permute by (auto; lia). reflexivity.
Qed.

(** [P X] and [P A P^T] as products with the permutation matrix. *)
Lemma matmul_perm_matrix x :
  shape0 x = n -> matmul (perm_matrix p) x = Ok (permute_rows p x).
Proof.
  intros Hx. pose proof is_perm_length as Hl.
  unfold matmul, perm_matrix, permute_rows.
  rewrite shape0_tabulate, shape1_tabulate, Hl, Hx, Nat.eqb_refl. f_equal.
  apply tabulate_ext. intros i k Hi Hk.
  rewrite (bigsum_ext n _ (fun j => delta (nth i p 0%nat) j * get x j k)).
  - apply (bigsum_delta_l n (nth i p 0%nat) (fun j => get x j k)).
    now apply is_perm_lt.
  - intros j Hj. now rewrite get_tabulate.
Qed.

Lemma matmul_perm_conj a :
  square n a ->
  (t <- matmul (perm_matrix p) a ;; matmul t (transpose (perm_matrix p)))
  = Ok (permute p a).
Proof.
  intros [H0 H1]. pose proof is_perm_length as Hl.
  rewrite (matmul_perm_matrix a H0). cbn [bind].
  unfold matmul, permute_rows, transpose, perm_matrix, permute.
  rewrite !shape0_tabulate, !shape1_tabulate, Hl, H1, Nat.eqb_refl. f_equal.
  apply tabulate_ext. intros i k Hi Hk.
  rewrite (bigsum_ext n _ (fun j => get a (nth i p 0%nat) j
                                    * delta j (nth k p 0%nat))).
  - apply (bigsum_delta_r n (nth k p 0%nat) (fun j => get a (nth i p 0%nat) j)).
    now apply is_perm_lt.
  - intros j Hj. rewrite !get_tabulate by lia. f_equal.
    unfold delta. now rewrite Nat.eqb_sym.
Qed.

(** Row-wise maps commute with a permutation of the rows. *)
Lemma Linear_forward_permute_rows lin y :
  shape0 y = n ->
  Linear_forward lin (permute_rows p y)
  = fmap (permute_rows p) (Linear_forward lin y).
Proof.
  intros Hy. pose proof is_perm_length as Hl.
  unfold Linear_forward. unfold permute_rows at 1. rewrite shape1_tabulate.
  destruct (Nat.eqb_spec (shape1 y) (in_features lin)) as [E|]; [|reflexivity].
  cbn [fmap]. f_equal. unfold permute_rows.
  rewrite !shape0_tabulate, shape1_tabulate, Hl, Hy.
  apply tabulate_ext. intros i o Hi Ho.
  rewrite get_tabulate by (auto using is_perm_lt).
  f_equal. apply bigsum_ext. intros k Hk.
  rewrite get_tabulate by lia. reflexivity.
Qed.

Lemma matmul_permute m x :
  square n m -> shape0 x = n ->
  matmul (permute p m) (permute_rows p x)
  = fmap (permute_rows p) (matmul m x).
Proof.
  intros [H0 H1] Hx. pose proof is_perm_length as Hl.
  destruct (square_permute m) as [P0 P1].
  unfold matmul.
  rewrite P0, P1, shape0_permute_rows, Hl, H0, H1, Hx, Nat.eqb_refl.
  cbn [fmap]. f_equal.
  change (shape1 (permute_rows p x)) with (shape1 x).
  unfold permute_rows at 2. rewrite shape1_tabulate, Hl.
  apply tabulate_ext. intros i k Hi Hk.
  rewrite get_tabulate by (auto using is_perm_lt).
  rewrite <- (bigsum_reindex n p
                (fun j => get m (nth i p 0%nat) j * get x j k) Hp).
  apply bigsum_ext. intros j Hj.
  rewrite get_permute, get_permute_rows by lia. reflexivity.
Qed.

(** The normalised adjacency of the permuted graph is the permuted normalised
    adjacency. *)
Lemma adj_norm_permute a :
  square n a ->
  tabulate n n (fun i j => / sqrt (rowsum (permute p a) i)
                           * (get (permute p a) i j + delta i j)
                           * / sqrt (rowsum (permute p a) j))
  = permute p (tabulate n n (fun i j => / sqrt (rowsum a i)
                                        * (get a i j + delta i j)
                                        * / sqrt (rowsum a j))).
Proof.
  intros Hsq. pose proof is_perm_length as Hl.
  unfold permute at 4. rewrite Hl. apply tabulate_ext. intros i j Hi Hj.
  rewrite get_tabulate by (auto using is_perm_lt).
  rewrite !rowsum_permute by assumption.
  rewrite (delta_perm i j Hi Hj).
  rewrite get_permute by lia. reflexivity.
Qed.

End Permuted.

(** ** Permutation equivariance *)

(** C7.  Permuting the nodes of the graph ([P A P^T]) and the rows of the
    features ([P X]) permutes the rows of the output of the normalised layer
    in the same way; a raise on one side is the same raise on the other. *)
Theorem normalized_layer_equivariant n p a x input_dim output_dim W b :
  is_perm n p -> square n a -> nonneg a -> shape0 x = n ->
  normalized_output (permute p a) input_dim output_dim W b (permute_rows p x)
  = fmap (permute_rows p) (normalized_output a input_dim output_dim W b x).
Proof.
  intros H Hsq _ Hx.
  pose proof (square_permute n p H a) as Hsq'.
  unfold normalized_output.
  rewrite (Normalized_init_char n (permute p a) _ _ _ W b Hsq' (proj1 Hsq')).
  rewrite (Normalized_init_char n a _ _ _ W b Hsq (proj1 Hsq)).
  rewrite (singular_permute n p H a Hsq).
  destruct (singular n a); [reflexivity|].
  cbn [bind]. unfold Normalized.forward.
  cbn [Normalized.adj_norm Normalized.linear].
  rewrite (adj_norm_permute n p H a Hsq).
  set (An := tabulate n n (fun i j => / sqrt (rowsum a i)
                                      * (get a i j + delta i j)
                                      * / sqrt (rowsum a j))).
  assert (HsqA : square n An).
  { split; [apply shape0_tabulate|reflexivity]. }
  rewrite (matmul_permute n p H An x HsqA Hx).
  assert (Hs : forall y, matmul An x = Ok y -> shape0 y = n).
  { unfold matmul. intros y. destruct (Nat.eqb _ _); [|discriminate].
    intros E. injection E as <-. rewrite shape0_tabulate. apply HsqA. }
  destruct (matmul An x) as [y|e]; cbn [fmap bind]; [|reflexivity].
  apply (Linear_forward_permute_rows n p H). now apply Hs.
Qed.

(** ** The ring on five nodes *)

Lemma ring_adj_eq :
  ring_adj = Tensor 5 [[0; 1; 0; 0; 1];
                       [1; 0; 1; 0; 0];
                       [0; 1; 0; 1; 0];
                       [0; 0; 1; 0; 1];
                       [1; 0; 0; 1; 0]].
Proof. eval_tensor. entrywise; lra. Qed.

Lemma inv_sqrt_sqr x : 0 < x -> / sqrt x * / sqrt x = / x.
Proof.
  intros Hx. pose proof (sqrt_lt_R0 x Hx) as Hs.
  pose proof (sqrt_sqrt x (Rlt_le _ _ Hx)) as Hq.
  rewrite <- Rinv_mult, Hq. reflexivity.
Qed.

Lemma ring_rowsum i : (i < 5)%nat -> rowsum ring_adj i = 2.
Proof. intros Hi. index_cases i; eval_tensor; lra. Qed.

Lemma ring_raw_output :
  RawSum.forward (RawSum.init 1 1 ring_adj W1 b0) (ones 5 1) = Ok (column 5 2).
Proof. eval_layer. entrywise; lra. Qed.

Lemma ring_normalized_output :
  normalized_output ring_adj 1 1 W1 b0 (ones 5 1) = Ok (column 5 (3 / 2)).
Proof.
  unfold normalized_output.
  rewrite (Normalized_init_char 5); [| split; reflexivity | reflexivity].
  rewrite singular_false.
  2:{ intros i Hi. rewrite ring_rowsum by exact Hi. lra. }
  cbn [bind]. eval_layer.
  pose proof (inv_sqrt_sqr 2 ltac:(lra)) as Hs.
  entrywise; degrees_are_2; set (t := / sqrt 2) in *; nra.
Qed.

(** ** The normalisation of the text against the one of the code *)

Lemma rowsum_add_eye n a i :
  square n a -> (i < n)%nat ->
  rowsum (tabulate n n (fun i j => get a i j + delta i j)) i = rowsum a i + 1.
Proof.
  intros [H0 H1] Hi. unfold rowsum. rewrite shape1_tabulate, H1.
  rewrite (bigsum_ext n _ (fun j => get a i j + delta i j * 1)).
  - rewrite bigsum_plus.
    now rewrite (bigsum_delta_l n i (fun _ => 1)).
  - intros j Hj. rewrite get_tabulate by lia. lra.
Qed.

Lemma kipf_welling_char n a :
  square n a ->
  kipf_welling a
  = if existsb (fun i => is_zero (sqrt (rowsum a i + 1))) (seq 0 n)
    then Err SingularMatrix
    else Ok (tabulate n n (fun i j => / sqrt (rowsum a i + 1)
                                      * (get a i j + delta i j)
                                      * / sqrt (rowsum a j + 1))).
Proof.
  intros Hsq. unfold kipf_welling.
  rewrite (proj1 Hsq), (tadd_eye n a Hsq). cbn [bind].
  set (at_ := tabulate n n (fun i j => get a i j + delta i j)).
  assert (Hn : forall i, (i < n)%nat -> nth i (sum_axis1 at_) 0 = rowsum a i + 1).
  { intros i Hi. rewrite nth_sum_axis1 by (unfold at_; now rewrite shape0_tabulate).
    now apply rowsum_add_eye. }
  rewrite (inverse_sqrt_diag n).
  2:{ rewrite length_sum_axis1. apply shape0_tabulate. }
  rewrite (existsb_ext_in _ (fun i => is_zero (sqrt (rowsum a i + 1)))).
  2:{ intros i Hi. apply in_seq in Hi. rewrite Hn by lia. reflexivity. }
  destruct (existsb _ _); [reflexivity|]. cbn [bind].
  rewrite (tabulate_ext n n _ (fun i j => / sqrt (rowsum a i + 1) * delta i j)).
  2:{ intros i j Hi Hj. now rewrite Hn. }
  apply (matmul_diag_both n (fun i => / sqrt (rowsum a i + 1))).
Qed.

Lemma rowsum_nonneg n a i :
  square n a -> nonneg a -> (i < n)%nat -> 0 <= rowsum a i.
Proof.
  intros [H0 H1] Hnn Hi. unfold rowsum. apply bigsum_nonneg.
  intros j Hj. apply Hnn; lia.
Qed.

(** With the degrees of [A + I] the normalisation is defined for every graph
    and has a positive diagonal. *)
Lemma kipf_welling_defined n a :
  square n a -> nonneg a ->
  exists t, kipf_welling a = Ok t
            /\ forall i, (i < n)%nat -> 0 < get t i i.
Proof.
  intros Hsq Hnn. rewrite (kipf_welling_char n a Hsq).
  assert (Hpos : forall i, (i < n)%nat -> 0 < rowsum a i + 1).
  { intros i Hi. pose proof (rowsum_nonneg n a i Hsq Hnn Hi). lra. }
  destruct (existsb _ _) eqn:E.
  - apply existsb_exists in E. destruct E as [i [Hi Hz]]. apply in_seq in Hi.
    rewrite is_zero_sqrt_pos in Hz by (apply Hpos; lia). discriminate.
  - eexists. split; [reflexivity|]. intros i Hi.
    rewrite get_tabulate by exact Hi.
    pose proof (sqrt_lt_R0 _ (Hpos i Hi)) as Hs.
    pose proof (Rinv_0_lt_compat _ Hs) as Hi'.
    assert (0 < get a i i + delta i i).
    { unfold delta. rewrite Nat.eqb_refl.
      destruct Hsq as [H0 H1].
      assert (0 <= get a i i) by (apply Hnn; lia). lra. }
    apply Rmult_lt_0_compat; [apply Rmult_lt_0_compat|]; assumption.
Qed.

(** The constructor raises as soon as one node has no outgoing edge. *)
Lemma Normalized_init_isolated n adj input_dim output_dim A W b i :
  square n adj -> shape0 A = n -> (i < n)%nat -> rowsum adj i = 0 ->
  Normalized.init adj input_dim output_dim A W b = Err SingularMatrix.
Proof.
  intros Hsq HA Hi Hz.
  rewrite (Normalized_init_char n) by assumption.
  now rewrite (singular_true n adj i).
Qed.

(** C1.  On two connected nodes the layer normalises [A + I] with the degrees
    of [A] (1 and 1), which gives entries 1, where the degrees of [A + I]
    (2 and 2) give entries 1/2. *)
Theorem adj_norm_uses_degrees_of_A :
  (exists layer,
      Normalized.init pair_graph 1 1 pair_graph W1 b0 = Ok layer
      /\ Normalized.adj_norm layer = Tensor 2 [[1; 1]; [1; 1]])
  /\ kipf_welling pair_graph = Ok (Tensor 2 [[1 / 2; 1 / 2]; [1 / 2; 1 / 2]]).
Proof.
  assert (Hsq : square 2 pair_graph) by (split; reflexivity).
  assert (Hr : forall i, (i < 2)%nat -> rowsum pair_graph i = 1).
  { intros i Hi. index_cases i; eval_tensor; lra. }
  split.
  - rewrite (Normalized_init_char 2) by (auto; reflexivity).
    rewrite singular_false by (intros i Hi; rewrite Hr by exact Hi; lra).
    eexists. split; [reflexivity|]. cbn [Normalized.adj_norm].
    unfold tabulate. cbn [map seq]. rewrite !Hr by lia. rewrite sqrt_1.
    eval_tensor. entrywise; lra.
  - rewrite (kipf_welling_char 2) by exact Hsq.
    destruct (existsb _ _) eqn:E.
    + apply existsb_exists in E. destruct E as [i [Hi Hz]]. apply in_seq in Hi.
      rewrite Hr, is_zero_sqrt_pos in Hz by (lia || lra). discriminate.
    + unfold tabulate. cbn [map seq]. rewrite !Hr by lia.
      replace (1 + 1) with 2 by lra.
      pose proof (inv_sqrt_sqr 2 ltac:(lra)) as Hs.
      eval_tensor. entrywise; set (t := / sqrt 2) in *; nra.
Qed.

(** C4.  With node 0 isolated the constructor raises on the singular degree
    matrix, although the normalisation with the degrees of [A + I] is
    defined there with a positive diagonal. *)
Theorem init_raises_on_isolated_node :
  Normalized.init isolated_graph 1 1 isolated_graph W1 b0 = Err SingularMatrix
  /\ exists t, kipf_welling isolated_graph = Ok t
               /\ forall i, (i < 3)%nat -> 0 < get t i i.
Proof.
  assert (Hsq : square 3 isolated_graph) by (split; reflexivity).
  split.
  - apply (Normalized_init_isolated 3 _ _ _ _ _ _ 0%nat); auto; try reflexivity.
    eval_tensor. lra.
  - apply kipf_welling_defined; [exact Hsq|].
    intros i j Hi Hj. change (shape0 isolated_graph) with 3%nat in Hi.
    change (shape1 isolated_graph) with 3%nat in Hj.
    index_cases i; index_cases j; eval_tensor; lra.
Qed.

(** C2.  On the ring of five nodes with unit features, unit weight and zero
    bias, every row of the raw-sum output is 2 and every row of the output of
    the normalised layer is 3/2: the layer divides by the degree 2 of [A],
    where the degree 3 of [A + I] gives 1. *)
Theorem ring_layer_outputs :
  RawSum.forward (RawSum.init 1 1 ring_adj W1 b0) (ones 5 1) = Ok (column 5 2)
  /\ normalized_output ring_adj 1 1 W1 b0 (ones 5 1) = Ok (column 5 (3 / 2))
  /\ (an <- kipf_welling ring_adj ;;
      x1 <- matmul an (ones 5 1) ;;
      Linear_forward (mkLinear 1 1 W1 b0) x1) = Ok (column 5 1).
Proof.
  split; [exact ring_raw_output|]. split; [exact ring_normalized_output|].
  rewrite (kipf_welling_char 5) by (split; reflexivity).
  destruct (existsb _ _) eqn:E.
  - apply existsb_exists in E. destruct E as [i [Hi Hz]]. apply in_seq in Hi.
    rewrite ring_rowsum, is_zero_sqrt_pos in Hz by (lia || lra). discriminate.
  - cbn [bind].
    rewrite (tabulate_ext 5 5 _ (fun i j => / sqrt 3 * (get ring_adj i j + delta i j)
                                           * / sqrt 3)).
    2:{ intros i j Hi Hj. rewrite !ring_rowsum by assumption.
        replace (2 + 1) with 3 by lra. reflexivity. }
    pose proof (inv_sqrt_sqr 3 ltac:(lra)) as Hs.
    eval_layer. entrywise; set (t := / sqrt 3) in *; nra.
Qed.

(** ** The constructor argument [A] *)

(** C10.  Two constructor arguments with the same number of rows give, with
    the same global [adj] and the same parameters, the same normalised
    adjacency (or the same raise) and the same forward pass. *)
Theorem init_reads_only_shape_of_A adj input_dim output_dim A1 A2 W b :
  shape0 A1 = shape0 A2 ->
  fmap Normalized.adj_norm (Normalized.init adj input_dim output_dim A1 W b)
  = fmap Normalized.adj_norm (Normalized.init adj input_dim output_dim A2 W b)
  /\ forall x,
       (layer <- Normalized.init adj input_dim output_dim A1 W b ;;
        Normalized.forward layer x)
       = (layer <- Normalized.init adj input_dim output_dim A2 W b ;;
          Normalized.forward layer x).
Proof.
  intros H. unfold Normalized.init. rewrite H.
  destruct (tadd adj (eye (shape0 A2))) as [a0|e]; cbn [bind fmap]; [|auto].
  destruct (inverse _) as [d|e]; cbn [bind fmap]; [|auto].
  destruct (matmul d a0) as [t|e]; cbn [bind fmap]; [|auto].
  destruct (matmul t d) as [an|e]; cbn [bind fmap]; auto.
Qed.

Lemma init_reads_only_shape_of_A_witness :
  shape0 pair_graph = shape0 (eye 2)
  /\ fmap Normalized.adj_norm (Normalized.init pair_graph 1 1 pair_graph W1 b0)
     = fmap Normalized.adj_norm (Normalized.init pair_graph 1 1 (eye 2) W1 b0)
  /\ forall x,
       (layer <- Normalized.init pair_graph 1 1 pair_graph W1 b0 ;;
        Normalized.forward layer x)
       = (layer <- Normalized.init pair_graph 1 1 (eye 2) W1 b0 ;;
          Normalized.forward layer x).
Proof.
  split; [reflexivity|].
  apply (init_reads_only_shape_of_A pair_graph 1 1 pair_graph (eye 2) W1 b0).
  reflexivity.
Defined.

(** ** The raw-sum layer *)

Lemma shape0_transpose t : shape0 (transpose t) = shape1 t.
Proof. apply shape0_tabulate. Qed.

Lemma get_transpose t i j :
  (i < shape1 t)%nat -> (j < shape0 t)%nat -> get (transpose t) i j = get t j i.
Proof. intros Hi Hj. unfold transpose. now rewrite get_tabulate. Qed.

(** [nn.Linear] is the product with the transposed weight plus the bias. *)
Lemma Linear_forward_affine lin x :
  shape0 (weight lin) = out_features lin ->
  shape1 (weight lin) = in_features lin ->
  Linear_forward lin x
  = (h <- matmul x (transpose (weight lin)) ;; Ok (add_bias h (bias lin))).
Proof.
  intros H0 H1. unfold Linear_forward, matmul.
  rewrite shape0_transpose, H1.
  destruct (Nat.eqb_spec (shape1 x) (in_features lin)) as [E|]; [|reflexivity].
  cbn [bind]. f_equal. unfold add_bias.
  rewrite shape0_tabulate, shape1_tabulate.
  change (shape1 (transpose (weight lin))) with (shape0 (weight lin)).
  rewrite H0. apply tabulate_ext. intros i o Hi Ho.
  rewrite get_tabulate by assumption. f_equal. rewrite E.
  apply bigsum_ext. intros k Hk. rewrite get_transpose by lia. reflexivity.
Qed.

Lemma add_bias_zero h b :
  wf h -> (forall o, (o < shape1 h)%nat -> nth o b 0 = 0) -> add_bias h b = h.
Proof.
  intros Hwf Hb. destruct h as [m rs]. unfold add_bias, tabulate, wf in *.
  cbn [shape0 shape1 rows] in *. f_equal.
  apply nth_ext with (d := []) (d' := []).
  - now rewrite length_map, length_seq.
  - intros i Hi. rewrite length_map, length_seq in Hi.
    rewrite (nth_map_seq (fun i => map _ (seq 0 m))) by exact Hi.
    assert (Hlen : length (nth i rs []) = m).
    { rewrite Forall_forall in Hwf. apply Hwf, nth_In, Hi. }
    apply nth_ext with (d := 0) (d' := 0).
    + now rewrite length_map, length_seq.
    + intros j Hj. rewrite length_map, length_seq in Hj.
      rewrite (nth_map_seq (fun j => get _ i j + nth j b 0)) by exact Hj.
      rewrite Hb by exact Hj. unfold get. simpl. now rewrite Rplus_0_r.
Qed.

Lemma matmul_wf a b t : matmul a b = Ok t -> wf t.
Proof.
  unfold matmul. destruct (Nat.eqb _ _); [|discriminate].
  intros E. injection E as <-. apply wf_tabulate.
Qed.

(** A 0/1-weighted sum is the sum over the indices of weight 1. *)
Lemma rsum_zero_one (c f : nat -> R) l :
  (forall j, In j l -> c j = 0 \/ c j = 1) ->
  rsum (map (fun j => c j * f j) l)
  = rsum (map f (filter (fun j => negb (is_zero (c j))) l)).
Proof.
  induction l as [|a l IH]; intros H; [reflexivity|].
  cbn [map filter rsum fold_right].
  assert (IH' : rsum (map (fun j => c j * f j) l)
                = rsum (map f (filter (fun j => negb (is_zero (c j))) l))).
  { apply IH. intros j Hj. apply H. now right. }
  unfold rsum in *. rewrite IH'. unfold is_zero.
  destruct (H a (or_introl eq_refl)) as [E|E]; rewrite E;
    destruct (Req_dec_T _ 0) as [Z|Z]; cbn [negb map fold_right]; lra.
Qed.

(** C3 (amended).  The output of the raw-sum layer is [(A X) W^T + b] for the
    weight [W] and the bias [b] of its linear map, hence [(A X) W^T] when the
    bias is zero; and for a 0/1 matrix [A], row [i] of [A X] is the plain sum
    of the rows of [X] of the neighbours of [i]. *)
Theorem raw_forward_affine d_in d_out A X W b :
  shape0 W = d_out -> shape1 W = d_in ->
  RawSum.forward (RawSum.init d_in d_out A W b) X
  = (ax <- matmul A X ;; h <- matmul ax (transpose W) ;; Ok (add_bias h b))
  /\ ((forall o, (o < d_out)%nat -> nth o b 0 = 0) ->
      RawSum.forward (RawSum.init d_in d_out A W b) X
      = (ax <- matmul A X ;; matmul ax (transpose W)))
  /\ (zero_one A ->
      forall ax, matmul A X = Ok ax ->
      forall i k, (i < shape0 A)%nat -> (k < shape1 X)%nat ->
        get ax i k = rsum (map (fun j => get X j k) (neighbors A i))).
Proof.
  intros H0 H1.
  assert (Hf : RawSum.forward (RawSum.init d_in d_out A W b) X
               = (ax <- matmul A X ;; h <- matmul ax (transpose W) ;;
                  Ok (add_bias h b))).
  { unfold RawSum.forward, RawSum.init. cbn [RawSum.A RawSum.linear].
    destruct (matmul A X) as [ax|e]; cbn [bind]; [|reflexivity].
    now apply (Linear_forward_affine (mkLinear d_in d_out W b)). }
  split; [exact Hf|]. split.
  - intros Hb. rewrite Hf.
    destruct (matmul A X) as [ax|e]; cbn [bind]; [|reflexivity].
    destruct (matmul ax (transpose W)) as [h|e] eqn:Eh; cbn [bind]; [|reflexivity].
    f_equal. apply add_bias_zero; [exact (matmul_wf _ _ _ Eh)|].
    intros o Ho. apply Hb.
    unfold matmul in Eh. destruct (Nat.eqb _ _); [|discriminate].
    injection Eh as <-. rewrite shape1_tabulate in Ho.
    change (shape1 (transpose W)) with (shape0 W) in Ho. lia.
  - intros H01 ax Hax i k Hi Hk. unfold matmul in Hax.
    destruct (Nat.eqb_spec (shape1 A) (shape0 X)) as [E|]; [|discriminate].
    injection Hax as <-. rewrite get_tabulate by assumption.
    unfold bigsum, neighbors.
    apply (rsum_zero_one (fun j => get A i j) (fun j => get X j k)).
    intros j Hj. apply in_seq in Hj. apply H01; lia.
Qed.

(** ** Pooling per graph *)

Lemma mapM_ok {T U : Type} (f : T -> result U) (g : T -> U) l :
  (forall a, In a l -> f a = Ok (g a)) -> mapM f l = Ok (map g l).
Proof.
  induction l as [|a l IH]; intros H; [reflexivity|].
  cbn [mapM map]. rewrite (H a (or_introl eq_refl)). cbn [bind].
  rewrite IH; [reflexivity|]. intros a' Ha'. apply H. now right.
Qed.

Lemma mapM_err {T U : Type} (f : T -> result U) l a e :
  In a l -> f a = Err e -> exists e', mapM f l = Err e'.
Proof.
  induction l as [|a0 l IH]; intros Hin He; [contradiction|].
  cbn [mapM]. destruct Hin as [->|Hin].
  - rewrite He. cbn [bind]. eauto.
  - destruct (f a0) as [u|e0]; cbn [bind]; [|eauto].
    destruct (IH Hin He) as [e' ->]. cbn [bind]. eauto.
Qed.

Lemma subscript_nth ptr k :
  (k < length ptr)%nat -> subscript ptr k = Ok (ptr_at ptr k).
Proof.
  intros Hk. unfold subscript, ptr_at.
  now rewrite (nth_error_nth' ptr 0%Z Hk).
Qed.

Lemma narrow_ok x s len :
  (0 <= len)%Z -> (0 <= s)%Z -> (s + len <= Z.of_nat (shape0 x))%Z ->
  narrow x s len
  = Ok (Tensor (shape1 x)
          (firstn (Z.to_nat len) (skipn (Z.to_nat s) (rows x)))).
Proof.
  intros Hl Hs Hn. unfold narrow.
  destruct (Z.ltb_spec len 0); [lia|].
  destruct (Z.leb_spec (- Z.of_nat (shape0 x)) s); [|lia].
  destruct (Z.leb_spec s (Z.of_nat (shape0 x))); [|lia].
  cbn [andb negb].
  destruct (Z.ltb_spec s 0); [lia|].
  destruct (Z.ltb_spec (Z.of_nat (shape0 x) - len) s); [lia|reflexivity].
Qed.

Lemma rsum_seq_shift (f : nat -> R) a len :
  rsum (map (fun i => f (a + i)%nat) (seq 0 len)) = rsum (map f (seq a len)).
Proof.
  f_equal. rewrite <- (map_map (fun i => (a + i)%nat) f). f_equal.
  revert a. induction len as [|len IH]; intros a; [reflexivity|].
  rewrite !seq_S, map_app, IH. reflexivity.
Qed.

(** Column sums of a slice of rows. *)
Lemma sum_axis0_slice x a len :
  (a + len <= shape0 x)%nat ->
  sum_axis0 (Tensor (shape1 x) (firstn len (skipn a (rows x))))
  = rows_sum x a (a + len).
Proof.
  intros H. unfold sum_axis0, rows_sum. cbn [shape1].
  replace (a + len - a)%nat with len by lia.
  assert (Hlen : shape0 (Tensor (shape1 x) (firstn len (skipn a (rows x)))) = len).
  { unfold shape0 in *. cbn [rows]. rewrite length_firstn, length_skipn. lia. }
  rewrite Hlen. apply map_ext. intros j.
  rewrite <- rsum_seq_shift. unfold bigsum. f_equal.
  apply map_ext_in. intros i Hi. apply in_seq in Hi.
  unfold get. cbn [rows]. rewrite nth_firstn.
  destruct (Nat.ltb_spec i len); [|lia]. now rewrite nth_skipn.
Qed.

Lemma length_rows_sum x a b : length (rows_sum x a b) = shape1 x.
Proof. unfold rows_sum. now rewrite length_map, length_seq. Qed.

(** [extract] on a range that lies within the rows of [x]. *)
Lemma extract_ok x idx ptr :
  (S idx < length ptr)%nat ->
  (0 <= ptr_at ptr idx <= ptr_at ptr (S idx))%Z ->
  (ptr_at ptr (S idx) <= Z.of_nat (shape0 x))%Z ->
  extract x idx ptr
  = Ok (Tensor (shape1 x)
          [rows_sum x (Z.to_nat (ptr_at ptr idx)) (Z.to_nat (ptr_at ptr (S idx)))]).
Proof.
  intros Hidx Hord Hend. unfold extract.
  rewrite subscript_nth by lia. cbn [bind].
  replace (idx + 1)%nat with (S idx) by lia.
  rewrite subscript_nth by lia. cbn [bind].
  set (s := ptr_at ptr idx) in *. set (e := ptr_at ptr (S idx)) in *.
  rewrite narrow_ok by lia. cbn [bind].
  rewrite sum_axis0_slice by lia.
  replace (Z.to_nat s + Z.to_nat (e - s))%nat with (Z.to_nat e) by lia.
  unfold reshape_row. now rewrite length_rows_sum.
Qed.

Lemma concat_rows {T : Type} (d : nat) (v : T -> vec) l :
  l <> [] ->
  concat (map (fun k => Tensor d [v k]) l) = Ok (Tensor d (map v l)).
Proof.
  intros Hne. destruct l as [|a l]; [contradiction|].
  cbn [map concat shape1].
  assert (Hall : forallb (fun u => Nat.eqb (shape1 u) d)
                   (map (fun k => Tensor d [v k]) l) = true).
  { apply forallb_forall. intros u Hu. apply in_map_iff in Hu.
    destruct Hu as [k [<- _]]. apply Nat.eqb_refl. }
  rewrite Hall. f_equal. f_equal.
  change (flat_map rows (map (fun k => Tensor d [v k]) (a :: l)) = map v (a :: l)).
  clear. induction (a :: l) as [|c l' IH]; [reflexivity|].
  cbn [map flat_map rows app]. now rewrite IH.
Qed.

Lemma ptr_monotone ptr B :
  (forall k, (k < B)%nat -> (ptr_at ptr k <= ptr_at ptr (S k))%Z) ->
  forall i j, (i <= j)%nat -> (j <= B)%nat -> (ptr_at ptr i <= ptr_at ptr j)%Z.
Proof.
  intros Hm i j Hij. induction Hij as [|j Hij IH]; intros Hj; [lia|].
  specialize (Hm j ltac:(lia)). specialize (IH ltac:(lia)). lia.
Qed.

Lemma nth_rows_sum x a b j :
  (j < shape1 x)%nat ->
  nth j (rows_sum x a b) 0 = rsum (map (fun i => get x i j) (seq a (b - a))).
Proof.
  intros Hj. unfold rows_sum.
  now rewrite (nth_map_seq (fun j => rsum (map (fun i => get x i j) (seq a (b - a))))).
Qed.

(** C5 (amended).  For a batch of [B >= 1] graphs and a monotone [ptr] of
    length [B + 1] from 0 to the number of rows, pooling returns [B] rows of
    the width of [x], row [k] being the elementwise sum of the rows
    [ptr[k]], ..., [ptr[k+1] - 1] of [x]; for [ptr = [0, 2, 5]] these are
    [x[0] + x[1]] and [x[2] + x[3] + x[4]]. *)
Theorem pool_sums_rows x ptr B :
  (0 < B)%nat ->
  length ptr = S B ->
  (forall k, (k < B)%nat -> (ptr_at ptr k <= ptr_at ptr (S k))%Z) ->
  ptr_at ptr 0 = 0%Z ->
  ptr_at ptr B = Z.of_nat (shape0 x) ->
  exists t,
    pool x ptr = Ok t
    /\ shape0 t = B
    /\ shape1 t = shape1 x
    /\ (forall k, (k < B)%nat ->
          nth k (rows t) []
          = rows_sum x (Z.to_nat (ptr_at ptr k)) (Z.to_nat (ptr_at ptr (S k))))
    /\ (ptr = [0; 2; 5]%Z ->
        forall j, (j < shape1 x)%nat ->
          get t 0 j = get x 0 j + get x 1 j
          /\ get t 1 j = get x 2 j + get x 3 j + get x 4 j).
Proof.
  intros HB Hlen Hmono H0 Hn.
  set (v := fun k => rows_sum x (Z.to_nat (ptr_at ptr k))
                       (Z.to_nat (ptr_at ptr (S k)))).
  assert (Hex : forall k, In k (seq 0 B) ->
            extract x k ptr = Ok ((fun k => Tensor (shape1 x) [v k]) k)).
  { intros k Hk. apply in_seq in Hk.
    pose proof (ptr_monotone ptr B Hmono 0 k ltac:(lia) ltac:(lia)).
    pose proof (ptr_monotone ptr B Hmono k (S k) ltac:(lia) ltac:(lia)).
    pose proof (ptr_monotone ptr B Hmono (S k) B ltac:(lia) ltac:(lia)).
    apply extract_ok; lia. }
  exists (Tensor (shape1 x) (map v (seq 0 B))).
  split; [|split; [|split; [|split]]].
  - unfold pool. rewrite Hlen. replace (S B - 1)%nat with B by lia.
    rewrite (mapM_ok _ _ _ Hex). cbn [bind].
    apply concat_rows. destruct B; [lia|discriminate].
  - unfold shape0. cbn [rows]. now rewrite length_map, length_seq.
  - reflexivity.
  - intros k Hk. cbn [rows]. now rewrite (nth_map_seq v).
  - intros -> j Hj. injection Hlen as <-.
    unfold get at 1 4. cbn [rows map seq nth]. unfold v, ptr_at.
    cbn [nth]. rewrite !nth_rows_sum by exact Hj.
    change (Z.to_nat 0) with 0%nat. change (Z.to_nat 2) with 2%nat.
    change (Z.to_nat 5) with 5%nat. cbn [Nat.sub seq map rsum fold_right].
    split; lra.
Qed.

Lemma pool_sums_rows_witness :
  exists t,
    pool x5 [0; 2; 5]%Z = Ok t
    /\ shape0 t = 2%nat
    /\ shape1 t = shape1 x5
    /\ (forall k, (k < 2)%nat ->
          nth k (rows t) []
          = rows_sum x5 (Z.to_nat (ptr_at [0; 2; 5]%Z k))
              (Z.to_nat (ptr_at [0; 2; 5]%Z (S k))))
    /\ ([0; 2; 5]%Z = [0; 2; 5]%Z ->
        forall j, (j < shape1 x5)%nat ->
          get t 0 j = get x5 0 j + get x5 1 j
          /\ get t 1 j = get x5 2 j + get x5 3 j + get x5 4 j).
Proof.
  apply (pool_sums_rows x5 [0; 2; 5]%Z 2).
  - lia.
  - reflexivity.
  - intros k Hk. destruct k as [|[|k]]; cbn; lia.
  - reflexivity.
  - reflexivity.
Defined.

(** An empty batch makes the pooling raise: [ptr = [0]] over no row is
    monotone, starts at 0 and ends at the number of rows, and the list
    comprehension that [torch.concat] receives is empty. *)
Lemma pool_empty_batch_raises :
  length [0%Z] = 1%nat
  /\ ptr_at [0%Z] 0 = 0%Z
  /\ ptr_at [0%Z] 0 = Z.of_nat (shape0 (Tensor 1 []))
  /\ pool (Tensor 1 []) [0%Z] = Err EmptyList.
Proof. repeat split. Qed.

Lemma extract_err x idx ptr :
  (S idx < length ptr)%nat ->
  (ptr_at ptr (S idx) < ptr_at ptr idx
   \/ Z.of_nat (shape0 x) < ptr_at ptr idx
   \/ ptr_at ptr idx < - Z.of_nat (shape0 x)
   \/ Z.of_nat (shape0 x) < ptr_at ptr (S idx)
   \/ ptr_at ptr (S idx) < - Z.of_nat (shape0 x))%Z ->
  exists e, extract x idx ptr = Err e.
Proof.
  intros Hidx Hbad. unfold extract.
  rewrite subscript_nth by lia. cbn [bind].
  replace (idx + 1)%nat with (S idx) by lia.
  rewrite subscript_nth by lia. cbn [bind].
  set (s := ptr_at ptr idx) in *. set (e := ptr_at ptr (S idx)) in *.
  unfold narrow.
  destruct (Z.ltb_spec (e - s) 0); [cbn [bind]; eauto|].
  destruct (Z.leb_spec (- Z.of_nat (shape0 x)) s); cbn [andb negb bind]; [|eauto].
  destruct (Z.leb_spec s (Z.of_nat (shape0 x))); cbn [andb negb bind]; [|eauto].
  destruct (Z.ltb_spec s 0).
  - destruct (Z.ltb_spec (Z.of_nat (shape0 x) - (e - s))
                (s + Z.of_nat (shape0 x))); cbn [bind]; [eauto|lia].
  - destruct (Z.ltb_spec (Z.of_nat (shape0 x) - (e - s)) s);
      cbn [bind]; [eauto|lia].
Qed.

Lemma shape0_tmap f t : shape0 (tmap f t) = shape0 t.
Proof. unfold shape0, tmap. cbn [rows]. apply length_map. Qed.

(** C9 (amended).  A [ptr] that decreases somewhere, or has an entry above
    the number of rows of [x] or below its negation, makes the pooling raise,
    and with it the forward pass of the graph-level model: no tensor is
    returned. *)
Theorem pool_rejects_bad_ptr x ptr :
  bad_ptr (shape0 x) ptr ->
  (exists e, pool x ptr = Err e)
  /\ forall self x0 edge_index x1,
       GraphLevel.graph_layer self x0 edge_index = Ok x1 ->
       shape0 x1 = shape0 x ->
       exists e, GraphLevel.forward self x0 edge_index ptr = Err e.
Proof.
  assert (Hpool : forall y, bad_ptr (shape0 y) ptr -> exists e, pool y ptr = Err e).
  { intros y Hbad. unfold pool.
    assert (Hstep : forall idx, (S idx < length ptr)%nat ->
              (exists e, extract y idx ptr = Err e) ->
              exists e, (ts <- mapM (fun idx => extract y idx ptr)
                                 (seq 0 (length ptr - 1)) ;; concat ts) = Err e).
    { intros idx Hidx [e He].
      destruct (mapM_err (fun idx => extract y idx ptr)
                  (seq 0 (length ptr - 1)) idx e) as [e' ->];
        [apply in_seq; lia | exact He | cbn [bind]; eauto]. }
    destruct Hbad as [[k [Hk Hdec]] | [k [Hk Hout]]].
    - apply (Hstep k Hk). apply extract_err; [exact Hk|]. now left.
    - destruct (Nat.eq_dec (length ptr) 1) as [E1|N1].
      + rewrite E1. cbn. eauto.
      + destruct (Nat.lt_ge_cases (S k) (length ptr)) as [Hlt|Hge].
        * apply (Hstep k Hlt). apply extract_err; [exact Hlt|]. lia.
        * destruct k as [|k]; [lia|].
          apply (Hstep k Hk). apply extract_err; [exact Hk|]. lia. }
  intros Hbad. split; [now apply Hpool|].
  intros self x0 edge_index x1 Hl Hs. unfold GraphLevel.forward.
  rewrite Hl. cbn [bind].
  destruct (Hpool (tmap relu x1)) as [e ->].
  - now rewrite shape0_tmap, Hs.
  - cbn [bind]. eauto.
Qed.

(** A negative boundary is counted from the end: the rows 3 and 4 are pooled. *)
Lemma pool_accepts_negative_ptr :
  (ptr_at [-2; 0]%Z 0 < 0)%Z
  /\ pool x5 [-2; 0]%Z = Ok (Tensor 1 [[9]]).
Proof.
  split; [reflexivity|].
  unfold pool. cbn [length Nat.sub seq mapM]. unfold extract.
  cbn [subscript nth_error Nat.add bind].
  unfold narrow. cbn.
  change (Pos.to_nat 2) with 2%nat. change (Pos.to_nat 3) with 3%nat. cbn.
  entrywise. lra.
Qed.

Lemma pool_rejects_bad_ptr_witness :
  bad_ptr (shape0 x5) [0; 3; 2; 5]%Z
  /\ (exists e, pool x5 [0; 3; 2; 5]%Z = Err e)
  /\ forall self x0 edge_index x1,
       GraphLevel.graph_layer self x0 edge_index = Ok x1 ->
       shape0 x1 = shape0 x5 ->
       exists e, GraphLevel.forward self x0 edge_index [0; 3; 2; 5]%Z = Err e.
Proof.
  assert (Hbad : bad_ptr (shape0 x5) [0; 3; 2; 5]%Z).
  { left. exists 1%nat. split; [cbn; lia | reflexivity]. }
  split; [exact Hbad|].
  exact (pool_rejects_bad_ptr x5 [0; 3; 2; 5]%Z Hbad).
Defined.

(** With a bias the output of the raw-sum layer is not [(A X) W]. *)
Lemma raw_forward_bias_counterexample :
  RawSum.forward (RawSum.init 1 1 pair_graph W1 [1]) (ones 2 1)
  = Ok (column 2 2)
  /\ (ax <- matmul pair_graph (ones 2 1) ;; matmul ax (transpose W1))
     = Ok (column 2 1)
  /\ RawSum.forward (RawSum.init 1 1 pair_graph W1 [1]) (ones 2 1)
     <> (ax <- matmul pair_graph (ones 2 1) ;; matmul ax (transpose W1)).
Proof.
  assert (H1 : RawSum.forward (RawSum.init 1 1 pair_graph W1 [1]) (ones 2 1)
               = Ok (column 2 2)).
  { eval_layer. entrywise; lra. }
  assert (H2 : (ax <- matmul pair_graph (ones 2 1) ;; matmul ax (transpose W1))
               = Ok (column 2 1)).
  { unfold transpose. eval_layer. entrywise; lra. }
  split; [exact H1|]. split; [exact H2|].
  rewrite H1, H2. unfold column. cbn [repeat]. intros E.
  injection E as E. lra.
Qed.

Lemma raw_forward_affine_witness :
  shape0 W1 = 1%nat /\ shape1 W1 = 1%nat
  /\ RawSum.forward (RawSum.init 1 1 pair_graph W1 b0) (ones 2 1)
     = (ax <- matmul pair_graph (ones 2 1) ;;
        h <- matmul ax (transpose W1) ;; Ok (add_bias h b0))
  /\ ((forall o, (o < 1)%nat -> nth o b0 0 = 0) ->
      RawSum.forward (RawSum.init 1 1 pair_graph W1 b0) (ones 2 1)
      = (ax <- matmul pair_graph (ones 2 1) ;; matmul ax (transpose W1)))
  /\ (zero_one pair_graph ->
      forall ax, matmul pair_graph (ones 2 1) = Ok ax ->
      forall i k, (i < shape0 pair_graph)%nat -> (k < shape1 (ones 2 1))%nat ->
        get ax i k = rsum (map (fun j => get (ones 2 1) j k) (neighbors pair_graph i))).
Proof.
  split; [reflexivity|]. split; [reflexivity|].
  apply (raw_forward_affine 1 1 pair_graph (ones 2 1) W1 b0); reflexivity.
Defined.

Lemma pair_graph_zero_one : zero_one pair_graph.
Proof.
  intros i j Hi Hj. change (shape0 pair_graph) with 2%nat in Hi.
  change (shape1 pair_graph) with 2%nat in Hj.
  index_cases i; index_cases j; cbv [get pair_graph rows nth]; auto.
Qed.

Lemma is_perm_swap : is_perm 2 [1; 0]%nat.
Proof. unfold is_perm. cbn [seq]. apply perm_swap. Qed.

Lemma normalized_layer_equivariant_witness :
  is_perm 2 [1; 0]%nat /\ square 2 pair_graph /\ nonneg pair_graph
  /\ shape0 (Tensor 1 [[1]; [2]]) = 2%nat
  /\ normalized_output (permute [1; 0]%nat pair_graph) 1 1 W1 b0
       (permute_rows [1; 0]%nat (Tensor 1 [[1]; [2]]))
     = fmap (permute_rows [1; 0]%nat)
         (normalized_output pair_graph 1 1 W1 b0 (Tensor 1 [[1]; [2]])).
Proof.
  assert (Hsq : square 2 pair_graph) by (split; reflexivity).
  assert (Hnn : nonneg pair_graph) by exact (zero_one_nonneg _ pair_graph_zero_one).
  split; [exact is_perm_swap|]. split; [exact Hsq|]. split; [exact Hnn|].
  split; [reflexivity|].
  exact (normalized_layer_equivariant 2 [1; 0]%nat pair_graph (Tensor 1 [[1]; [2]])
           1 1 W1 b0 is_perm_swap Hsq Hnn eq_refl).
Defined.

Example normalized_output_pair :
  normalized_output pair_graph 1 1 W1 b0 (Tensor 1 [[1]; [2]])
  = Ok (Tensor 1 [[3]; [3]]).
Proof.
  unfold normalized_output.
  assert (Hr : forall i, (i < 2)%nat -> rowsum pair_graph i = 1).
  { intros i Hi. index_cases i; eval_tensor; lra. }
  rewrite (Normalized_init_char 2); [| split; reflexivity | reflexivity].
  rewrite singular_false by (intros i Hi; rewrite Hr by exact Hi; lra).
  cbn [bind].
  rewrite (tabulate_ext 2 2 _ (fun i j => get pair_graph i j + delta i j)).
  2:{ intros i j Hi Hj. rewrite !Hr by assumption. rewrite sqrt_1. lra. }
  eval_layer. entrywise; lra.
Qed.

(** ** Dense adjacency of an edge list *)

Lemma num_nodes_cons e es : num_nodes (e :: es) = S (max_index (e :: es)).
Proof. reflexivity. Qed.

Lemma max_index_app l1 l2 :
  max_index (l1 ++ l2) = Nat.max (max_index l1) (max_index l2).
Proof.
  induction l1 as [|e l1 IH]; [reflexivity|].
  cbn [app max_index fold_right]. fold (max_index (l1 ++ l2)).
  fold (max_index l1). rewrite IH. lia.
Qed.

Lemma max_index_In e l :
  In e l -> (Nat.max (fst e) (snd e) <= max_index l)%nat.
Proof.
  induction l as [|a l IH]; intros H; [contradiction|].
  cbn [max_index fold_right]. fold (max_index l).
  destruct H as [->|H]; [lia|]. specialize (IH H). lia.
Qed.

Lemma num_nodes_duplicate (es1 es2 : list edge) (e : edge) :
  In e (es1 ++ es2) -> num_nodes (es1 ++ e :: es2) = num_nodes (es1 ++ es2).
Proof.
  intros Hin.
  assert (Hm : max_index (es1 ++ e :: es2) = max_index (es1 ++ es2)).
  { pose proof (max_index_In e _ Hin) as Hle.
    rewrite !max_index_app in *. cbn [max_index fold_right] in *.
    fold (max_index es2) in *. lia. }
  destruct (es1 ++ es2) as [|a l] eqn:E; [contradiction|].
  destruct (es1 ++ e :: es2) as [|a' l'] eqn:E'.
  - destruct es1; discriminate.
  - rewrite !num_nodes_cons. now rewrite Hm.
Qed.

Lemma rsum_app l1 l2 : rsum (l1 ++ l2) = rsum l1 + rsum l2.
Proof.
  unfold rsum. induction l1 as [|x l1 IH]; cbn [app fold_right]; [lra|].
  rewrite IH. lra.
Qed.

Lemma get_to_dense_adj es i j :
  (i < num_nodes es)%nat -> (j < num_nodes es)%nat ->
  get (to_dense_adj es) i j
  = rsum (map (fun e => if edge_eqb e (i, j) then 1 else 0) es).
Proof. intros Hi Hj. unfold to_dense_adj. now rewrite get_tabulate. Qed.

(** C6 (amended).  A second occurrence of an edge [(a, b)] of the list leaves
    the shape of the dense adjacency matrix, adds 1 to its entry [(a, b)] and
    leaves every other entry: entries count the occurrences of an edge. *)
Theorem to_dense_adj_counts_duplicates (es1 es2 : list edge) (a b : nat) :
  In (a, b) (es1 ++ es2) ->
  shape0 (to_dense_adj (es1 ++ (a, b) :: es2)) = shape0 (to_dense_adj (es1 ++ es2))
  /\ shape1 (to_dense_adj (es1 ++ (a, b) :: es2))
     = shape1 (to_dense_adj (es1 ++ es2))
  /\ forall i j,
       (i < num_nodes (es1 ++ es2))%nat -> (j < num_nodes (es1 ++ es2))%nat ->
       get (to_dense_adj (es1 ++ (a, b) :: es2)) i j
       = get (to_dense_adj (es1 ++ es2)) i j
         + (if edge_eqb (a, b) (i, j) then 1 else 0).
Proof.
  intros Hin. pose proof (num_nodes_duplicate es1 es2 (a, b) Hin) as Hn.
  split; [|split].
  - unfold to_dense_adj. rewrite !shape0_tabulate. exact Hn.
  - unfold to_dense_adj. rewrite !shape1_tabulate. exact Hn.
  - intros i j Hi Hj.
    rewrite (get_to_dense_adj (es1 ++ es2)) by assumption.
    rewrite (get_to_dense_adj (es1 ++ (a, b) :: es2))
      by (eapply Nat.lt_le_trans;
          [eassumption | apply Nat.eq_le_incl; symmetry; exact Hn]).
    rewrite !map_app, !rsum_app. cbn [map]. unfold rsum at 2.
    cbn [fold_right].
    fold (rsum (map (fun e => if edge_eqb e (i, j) then 1 else 0) es2)). lra.
Qed.

Lemma to_dense_adj_counts_duplicates_witness :
  In (0, 1)%nat ([] ++ [(0, 1)%nat])
  /\ shape0 (to_dense_adj ([] ++ (0, 1)%nat :: [(0, 1)%nat]))
     = shape0 (to_dense_adj ([] ++ [(0, 1)%nat]))
  /\ shape1 (to_dense_adj ([] ++ (0, 1)%nat :: [(0, 1)%nat]))
     = shape1 (to_dense_adj ([] ++ [(0, 1)%nat]))
  /\ forall i j,
       (i < num_nodes ([] ++ [(0, 1)%nat]))%nat ->
       (j < num_nodes ([] ++ [(0, 1)%nat]))%nat ->
       get (to_dense_adj ([] ++ (0, 1)%nat :: [(0, 1)%nat])) i j
       = get (to_dense_adj ([] ++ [(0, 1)%nat])) i j
         + (if edge_eqb (0, 1)%nat (i, j) then 1 else 0).
Proof.
  split; [now left|].
  apply (to_dense_adj_counts_duplicates [] [(0, 1)%nat] 0 1). now left.
Defined.

(** The edge (0, 1) listed twice gives the entry 2, not the entry 1 of the
    list with a single occurrence. *)
Lemma to_dense_adj_duplicate_counterexample :
  to_dense_adj [(0, 1); (0, 1)]%nat = Tensor 2 [[0; 2]; [0; 0]]
  /\ to_dense_adj [(0, 1)]%nat = Tensor 2 [[0; 1]; [0; 0]]
  /\ to_dense_adj [(0, 1); (0, 1)]%nat <> to_dense_adj [(0, 1)]%nat.
Proof.
  assert (H2 : to_dense_adj [(0, 1); (0, 1)]%nat = Tensor 2 [[0; 2]; [0; 0]]).
  { eval_tensor. entrywise; lra. }
  assert (H1 : to_dense_adj [(0, 1)]%nat = Tensor 2 [[0; 1]; [0; 0]]).
  { eval_tensor. entrywise; lra. }
  split; [exact H2|]. split; [exact H1|].
  rewrite H1, H2. intros E. injection E as E. lra.
Qed.

(** ** Log-probabilities *)

Lemma bigsum_exp_pos m (f : nat -> R) :
  (0 < m)%nat -> 0 < bigsum m (fun k => exp (f k)).
Proof.
  intros Hm. apply Rlt_le_trans with (exp (f 0%nat)); [apply exp_pos|].
  apply (bigsum_ge_term m (fun k => exp (f k)) 0%nat); [|exact Hm].
  intros j _. left. apply exp_pos.
Qed.

Lemma shape0_log_softmax x : shape0 (log_softmax x) = shape0 x.
Proof. apply shape0_tabulate. Qed.

Lemma get_log_softmax x i j :
  (i < shape0 x)%nat -> (j < shape1 x)%nat ->
  get (log_softmax x) i j
  = get x i j - ln (bigsum (shape1 x) (fun k => exp (get x i k))).
Proof. intros Hi Hj. unfold log_softmax. now rewrite get_tabulate. Qed.

(** The exponentials of a row of [log_softmax] sum to 1. *)
Lemma log_softmax_normalised x i :
  (i < shape0 x)%nat -> (0 < shape1 x)%nat ->
  bigsum (shape1 x) (fun j => exp (get (log_softmax x) i j)) = 1.
Proof.
  intros Hi Hm.
  set (S := bigsum (shape1 x) (fun k => exp (get x i k))).
  assert (HS : 0 < S) by (apply bigsum_exp_pos; exact Hm).
  rewrite (bigsum_ext _ _ (fun j => exp (get x i j) * / S)).
  - rewrite bigsum_scal_r. fold S. apply Rinv_r. lra.
  - intros j Hj. rewrite get_log_softmax by assumption. fold S.
    unfold Rminus. rewrite exp_plus, exp_Ropp, exp_ln by exact HS. reflexivity.
Qed.

(** A log-probability is never positive. *)
Lemma log_softmax_nonpos x i j :
  (i < shape0 x)%nat -> (j < shape1 x)%nat -> get (log_softmax x) i j <= 0.
Proof.
  intros Hi Hj. rewrite get_log_softmax by assumption.
  set (S := bigsum (shape1 x) (fun k => exp (get x i k))).
  assert (Hle : exp (get x i j) <= S).
  { apply (bigsum_ge_term (shape1 x) (fun k => exp (get x i k)) j); [|exact Hj].
    intros k _. left. apply exp_pos. }
  assert (Hln : get x i j <= ln S).
  { rewrite <- (ln_exp (get x i j)). destruct Hle as [Hlt|Heq].
    - left. apply ln_increasing; [apply exp_pos|exact Hlt].
    - right. now rewrite Heq. }
  lra.
Qed.

(** X1.  The baseline network raises exactly when the width of [x] is not
    its input dimension; otherwise it returns one row per row of [x], and
    every row holds log-probabilities: entries at most 0 whose exponentials
    sum to 1. *)
Theorem FFNN_forward_log_probabilities input_dim output_dim W b x :
  (0 < output_dim)%nat ->
  (shape1 x <> input_dim ->
   FFNN.forward (FFNN.init input_dim output_dim W b) x = Err ShapeError)
  /\ (shape1 x = input_dim ->
      exists y,
        FFNN.forward (FFNN.init input_dim output_dim W b) x = Ok y
        /\ shape0 y = shape0 x /\ shape1 y = output_dim
        /\ forall i, (i < shape0 x)%nat ->
             bigsum output_dim (fun j => exp (get y i j)) = 1
             /\ forall j, (j < output_dim)%nat -> get y i j <= 0).
Proof.
  intros Hout. unfold FFNN.forward, FFNN.init, Linear_forward.
  cbn [FFNN.layer_1 in_features out_features weight bias].
  split; intros Hx.
  - destruct (Nat.eqb_spec (shape1 x) input_dim); [contradiction|reflexivity].
  - rewrite Hx, Nat.eqb_refl. cbn [bind]. eexists. split; [reflexivity|].
    set (x1 := tabulate _ _ _).
    assert (H0 : shape0 x1 = shape0 x) by apply shape0_tabulate.
    assert (H1 : shape1 x1 = output_dim) by reflexivity.
    split; [now rewrite shape0_log_softmax|]. split; [exact H1|].
    intros i Hi. rewrite <- H0 in Hi. split.
    + rewrite <- H1. apply log_softmax_normalised; [exact Hi|]. now rewrite H1.
    + intros j Hj. apply log_softmax_nonpos; [exact Hi|]. now rewrite H1.
Qed.

Lemma FFNN_forward_log_probabilities_witness :
  (0 < 1)%nat /\ shape1 (ones 2 1) = 1%nat
  /\ exists y,
       FFNN.forward (FFNN.init 1 1 W1 b0) (ones 2 1) = Ok y
       /\ shape0 y = shape0 (ones 2 1) /\ shape1 y = 1%nat
       /\ forall i, (i < shape0 (ones 2 1))%nat ->
            bigsum 1 (fun j => exp (get y i j)) = 1
            /\ forall j, (j < 1)%nat -> get y i j <= 0.
Proof.
  split; [lia|]. split; [reflexivity|].
  apply (proj2 (FFNN_forward_log_probabilities 1 1 W1 b0 (ones 2 1)
                  ltac:(lia))).
  reflexivity.
Defined.

(** ** Predictions *)

Lemma list_as_map_nth {T : Type} (l : list T) (d : T) :
  l = map (fun i => nth i l d) (seq 0 (length l)).
Proof.
  apply nth_ext with (d := d) (d' := d).
  - now rewrite length_map, length_seq.
  - intros i Hi. now rewrite (nth_map_seq (fun i => nth i l d)).
Qed.

Lemma argmax_from_shift c best besti i v :
  argmax_from (best - c) besti i (map (fun y => y - c) v)
  = argmax_from best besti i v.
Proof.
  revert best besti i. induction v as [|y v IH]; intros best besti i.
  - reflexivity.
  - cbn [map argmax_from].
    destruct (Rlt_dec (best - c) (y - c)) as [H|H];
      destruct (Rlt_dec best y) as [H'|H']; try (exfalso; lra); apply IH.
Qed.

(** Subtracting a constant from a row does not move its first maximum. *)
Lemma argmax_shift c v : argmax (map (fun y => y - c) v) = argmax v.
Proof. destruct v as [|y v]; [reflexivity|]. apply argmax_from_shift. Qed.

Lemma rows_log_softmax x :
  wf x ->
  rows (log_softmax x)
  = map (fun r => map (fun y => y - ln (rsum (map exp r))) r) (rows x).
Proof.
  intros Hwf. unfold log_softmax, tabulate. cbn [rows].
  set (G := fun r : vec => map (fun y => y - ln (rsum (map exp r))) r).
  assert (E : map G (rows x)
              = map (fun i => G (nth i (rows x) [])) (seq 0 (shape0 x))).
  { rewrite <- (map_map (fun i => nth i (rows x) []) G). f_equal.
    apply list_as_map_nth. }
  change (map (fun i => map (fun j => get x i j
                  - ln (bigsum (shape1 x) (fun k => exp (get x i k))))
                  (seq 0 (shape1 x))) (seq 0 (shape0 x))
          = map G (rows x)).
  rewrite E. unfold G.
  apply map_ext_in. intros i Hi. apply in_seq in Hi.
  assert (Hlen : length (nth i (rows x) []) = shape1 x).
  { unfold wf in Hwf. rewrite Forall_forall in Hwf. apply Hwf, nth_In.
    unfold shape0 in Hi. lia. }
  set (r := nth i (rows x) []) in *.
  assert (Hr : r = map (fun j => get x i j) (seq 0 (shape1 x))).
  { rewrite (list_as_map_nth r 0) at 1. now rewrite Hlen. }
  assert (Hs : bigsum (shape1 x) (fun k => exp (get x i k)) = rsum (map exp r)).
  { unfold bigsum. rewrite Hr at 1. now rewrite map_map. }
  rewrite Hs. set (c := ln (rsum (map exp r))).
  rewrite <- (map_map (fun j => get x i j) (fun y => y - c)). now rewrite <- Hr.
Qed.

Lemma max_1_indices_log_softmax x :
  wf x -> max_1_indices (log_softmax x) = max_1_indices x.
Proof.
  intros Hwf. unfold max_1_indices.
  change (shape1 (log_softmax x)) with (shape1 x).
  destruct (Nat.eqb (shape1 x) 0); [reflexivity|]. f_equal.
  rewrite (rows_log_softmax x Hwf), map_map.
  apply map_ext. intros r. apply argmax_shift.
Qed.

Lemma Linear_forward_wf lin x y : Linear_forward lin x = Ok y -> wf y.
Proof.
  unfold Linear_forward. destruct (Nat.eqb _ _); [|discriminate].
  intros E. injection E as <-. apply wf_tabulate.
Qed.

(** X2.  The classes that [max(1)[1]] reads from the output of the baseline
    network are those of the scores of its linear layer: [log_softmax] does
    not change which entry of a row is the first largest. *)
Theorem FFNN_prediction_is_argmax_of_scores self x x1 :
  Linear_forward (FFNN.layer_1 self) x = Ok x1 ->
  (y <- FFNN.forward self x ;; max_1_indices y) = max_1_indices x1.
Proof.
  intros H. unfold FFNN.forward. rewrite H. cbn [bind].
  apply max_1_indices_log_softmax. exact (Linear_forward_wf _ _ _ H).
Qed.

Lemma FFNN_prediction_is_argmax_of_scores_witness :
  (y <- FFNN.forward (FFNN.init 1 1 W1 b0) (ones 2 1) ;; max_1_indices y)
  = max_1_indices
      (tabulate 2 1 (fun i o => bigsum 1 (fun k => get (ones 2 1) i k * get W1 o k)
                                + nth o b0 0)).
Proof.
  apply (FFNN_prediction_is_argmax_of_scores (FFNN.init 1 1 W1 b0) (ones 2 1)).
  reflexivity.
Defined.

(** ** Boolean masks over the rows *)

Lemma mask_as_gather {T : Type} (d : T) (l : list T) :
  forall (mask : list bool) (k : nat),
    length mask = length l ->
    map fst (filter snd (combine l mask))
    = map (fun i => nth (i - k) l d)
        (filter (fun i => nth (i - k) mask false) (seq k (length mask))).
Proof.
  induction l as [|a l IH]; intros [|b mask] k Hlen; try discriminate.
  - reflexivity.
  - cbn [combine filter length seq snd].
    replace (k - k)%nat with 0%nat by lia. cbn [nth].
    assert (Htl : map fst (filter snd (combine l mask))
                  = map (fun i => nth (i - k) (a :: l) d)
                      (filter (fun i => nth (i - k) (b :: mask) false)
                         (seq (S k) (length mask)))).
    { rewrite (IH mask (S k)) by (cbn in Hlen; lia).
      rewrite (filter_ext_in (fun i => nth (i - k) (b :: mask) false)
                 (fun i => nth (i - S k) mask false)).
      - apply map_ext_in. intros i Hi. apply filter_In in Hi.
        destruct Hi as [Hi _]. apply in_seq in Hi.
        replace (i - k)%nat with (S (i - S k)) by lia. reflexivity.
      - intros i Hi. apply in_seq in Hi.
        replace (i - k)%nat with (S (i - S k)) by lia. reflexivity. }
    destruct b; cbn [map fst].
    + replace (k - k)%nat with 0%nat by lia. cbn [nth]. now rewrite Htl.
    + exact Htl.
Qed.

Lemma row_as_map x s :
  wf x -> (s < shape0 x)%nat ->
  nth s (rows x) [] = map (fun k => get x s k) (seq 0 (shape1 x)).
Proof.
  intros Hwf Hs.
  assert (Hlen : length (nth s (rows x) []) = shape1 x).
  { unfold wf in Hwf. rewrite Forall_forall in Hwf. now apply Hwf, nth_In. }
  rewrite (list_as_map_nth (nth s (rows x) []) 0) at 1. now rewrite Hlen.
Qed.

Lemma selected_lt mask i :
  (i < length (selected mask))%nat -> (nth i (selected mask) 0 < length mask)%nat.
Proof.
  intros Hi. assert (Hin : In (nth i (selected mask) 0%nat) (selected mask))
    by now apply nth_In.
  unfold selected in Hin at 2. apply filter_In in Hin.
  destruct Hin as [Hin _]. apply in_seq in Hin. lia.
Qed.

(** Masking keeps the selected rows: it is a gather along [selected mask]. *)
Lemma mask_rows_gather x mask :
  wf x -> length mask = shape0 x ->
  mask_rows x mask = Ok (permute_rows (selected mask) x).
Proof.
  intros Hwf Hlen. unfold mask_rows. rewrite Hlen, Nat.eqb_refl. f_equal.
  unfold permute_rows, tabulate. f_equal.
  etransitivity; [apply (mask_as_gather [] (rows x) mask 0 Hlen)|].
  rewrite <- (map_map (fun i => nth i (selected mask) 0%nat)
                (fun s => map (fun j => get x s j) (seq 0 (shape1 x)))).
  rewrite <- (list_as_map_nth (selected mask) 0%nat).
  rewrite (filter_ext (fun i => nth (i - 0) mask false) (fun i => nth i mask false))
    by (intros i; now rewrite Nat.sub_0_r).
  fold (selected mask).
  apply map_ext_in. intros i Hi. unfold selected in Hi.
  apply filter_In in Hi. destruct Hi as [Hi _]. apply in_seq in Hi.
  rewrite Nat.sub_0_r. apply row_as_map; [exact Hwf|]. lia.
Qed.

(** Row-wise maps commute with a gather of rows. *)
Lemma Linear_forward_gather lin p y :
  (forall i, (i < length p)%nat -> (nth i p 0 < shape0 y)%nat) ->
  Linear_forward lin (permute_rows p y)
  = fmap (permute_rows p) (Linear_forward lin y).
Proof.
  intros Hp. unfold Linear_forward. unfold permute_rows at 1.
  rewrite shape1_tabulate.
  destruct (Nat.eqb_spec (shape1 y) (in_features lin)) as [E|]; [|reflexivity].
  cbn [fmap]. f_equal. unfold permute_rows.
  rewrite !shape0_tabulate, shape1_tabulate.
  apply tabulate_ext. intros i o Hi Ho.
  rewrite get_tabulate by auto.
  f_equal. apply bigsum_ext. intros k Hk.
  rewrite get_tabulate by lia. reflexivity.
Qed.

Lemma log_softmax_gather p y :
  (forall i, (i < length p)%nat -> (nth i p 0 < shape0 y)%nat) ->
  log_softmax (permute_rows p y) = permute_rows p (log_softmax y).
Proof.
  intros Hp. unfold log_softmax at 1. unfold permute_rows at 1 2 4.
  rewrite shape0_tabulate, !shape1_tabulate.
  change (shape1 (log_softmax y)) with (shape1 y).
  apply tabulate_ext. intros i j Hi Hj.
  rewrite get_log_softmax by auto.
  rewrite get_permute_rows by assumption. f_equal. f_equal.
  apply bigsum_ext. intros k Hk. now rewrite get_permute_rows.
Qed.

Lemma Linear_forward_shape0 lin x y :
  Linear_forward lin x = Ok y -> shape0 y = shape0 x.
Proof.
  unfold Linear_forward. destruct (Nat.eqb _ _); [|discriminate].
  intros E. injection E as <-. apply shape0_tabulate.
Qed.

(** X3.  The baseline network works row by row: applying it to the rows a
    mask keeps ([model(x[mask])], as its loop does) gives the kept rows of
    its output on all rows ([model(x)[mask]]). *)
Theorem FFNN_commutes_with_mask self x mask :
  wf x -> length mask = shape0 x ->
  (x' <- mask_rows x mask ;; FFNN.forward self x')
  = (y <- FFNN.forward self x ;; mask_rows y mask).
Proof.
  intros Hwf Hlen. rewrite (mask_rows_gather x mask Hwf Hlen). cbn [bind].
  assert (Hsel : forall i, (i < length (selected mask))%nat ->
                   (nth i (selected mask) 0 < shape0 x)%nat).
  { intros i Hi. rewrite <- Hlen. now apply selected_lt. }
  unfold FFNN.forward.
  rewrite (Linear_forward_gather _ _ _ Hsel).
  destruct (Linear_forward (FFNN.layer_1 self) x) as [x1|e] eqn:E;
    cbn [fmap bind]; [|reflexivity].
  pose proof (Linear_forward_shape0 _ _ _ E) as Hs.
  rewrite log_softmax_gather by (now rewrite Hs).
  symmetry. apply mask_rows_gather.
  - apply wf_tabulate.
  - now rewrite shape0_log_softmax, Hs.
Qed.

Lemma FFNN_commutes_with_mask_witness :
  wf x5 /\ length [true; false; true; false; false] = shape0 x5
  /\ (x' <- mask_rows x5 [true; false; true; false; false] ;;
      FFNN.forward (FFNN.init 1 1 W1 b0) x')
     = (y <- FFNN.forward (FFNN.init 1 1 W1 b0) x5 ;;
        mask_rows y [true; false; true; false; false]).
Proof.
  assert (Hwf : wf x5) by (repeat constructor).
  split; [exact Hwf|]. split; [reflexivity|].
  exact (FFNN_commutes_with_mask (FFNN.init 1 1 W1 b0) x5
           [true; false; true; false; false] Hwf eq_refl).
Defined.

(** ** The node-level models *)

Lemma matmul_shape a x y :
  matmul a x = Ok y -> shape0 y = shape0 a /\ shape1 y = shape1 x.
Proof.
  unfold matmul. destruct (Nat.eqb _ _); [|discriminate].
  intros E. injection E as <-. split; [apply shape0_tabulate|reflexivity].
Qed.

(** X4.  The model over the raw-sum layer raises a shape error when the
    width of [A] is not the number of rows of [x] or the width of [x] is not
    the input dimension; otherwise it returns one row of log-probabilities
    per row of [A]: entries at most 0 whose exponentials sum to 1. *)
Theorem RawSumGNN_forward_log_probabilities input_dim output_dim A W b x :
  (0 < output_dim)%nat ->
  (shape1 A <> shape0 x \/ shape1 x <> input_dim ->
   RawSumGNN.forward (RawSumGNN.init input_dim output_dim A W b) x
   = Err ShapeError)
  /\ (shape1 A = shape0 x -> shape1 x = input_dim ->
      exists y,
        RawSumGNN.forward (RawSumGNN.init input_dim output_dim A W b) x = Ok y
        /\ shape0 y = shape0 A /\ shape1 y = output_dim
        /\ forall i, (i < shape0 A)%nat ->
             bigsum output_dim (fun j => exp (get y i j)) = 1
             /\ forall j, (j < output_dim)%nat -> get y i j <= 0).
Proof.
  intros Hout.
  unfold RawSumGNN.forward, RawSumGNN.init, RawSum.forward, RawSum.init.
  cbn [RawSumGNN.layer RawSum.A RawSum.linear].
  unfold matmul, Linear_forward. cbn [in_features out_features weight bias].
  split.
  - intros [H|H].
    + destruct (Nat.eqb_spec (shape1 A) (shape0 x)); [contradiction|reflexivity].
    + destruct (Nat.eqb (shape1 A) (shape0 x)); [|reflexivity]. cbn [bind].
      rewrite shape1_tabulate.
      destruct (Nat.eqb_spec (shape1 x) input_dim); [contradiction|reflexivity].
  - intros HA Hx. rewrite HA, Nat.eqb_refl. cbn [bind].
    rewrite shape1_tabulate, Hx, Nat.eqb_refl. cbn [bind].
    eexists. split; [reflexivity|].
    set (x1 := tabulate (shape0 (tabulate _ _ _)) output_dim _).
    assert (H0 : shape0 x1 = shape0 A).
    { unfold x1. now rewrite !shape0_tabulate. }
    assert (H1 : shape1 x1 = output_dim) by reflexivity.
    split; [now rewrite shape0_log_softmax|]. split; [exact H1|].
    intros i Hi. rewrite <- H0 in Hi. split.
    + rewrite <- H1. apply log_softmax_normalised; [exact Hi|]. now rewrite H1.
    + intros j Hj. apply log_softmax_nonpos; [exact Hi|]. now rewrite H1.
Qed.

Lemma RawSumGNN_forward_log_probabilities_witness :
  (0 < 1)%nat /\ shape1 pair_graph = shape0 (ones 2 1)
  /\ shape1 (ones 2 1) = 1%nat
  /\ exists y,
       RawSumGNN.forward (RawSumGNN.init 1 1 pair_graph W1 b0) (ones 2 1) = Ok y
       /\ shape0 y = shape0 pair_graph /\ shape1 y = 1%nat
       /\ forall i, (i < shape0 pair_graph)%nat ->
            bigsum 1 (fun j => exp (get y i j)) = 1
            /\ forall j, (j < 1)%nat -> get y i j <= 0.
Proof.
  split; [lia|]. split; [reflexivity|]. split; [reflexivity|].
  apply (proj2 (RawSumGNN_forward_log_probabilities 1 1 pair_graph W1 b0
                  (ones 2 1) ltac:(lia))); reflexivity.
Defined.

Lemma is_perm_gather n p y :
  is_perm n p -> shape0 y = n ->
  forall i, (i < length p)%nat -> (nth i p 0 < shape0 y)%nat.
Proof.
  intros Hp Hy i Hi. rewrite Hy. apply (is_perm_lt n p Hp).
  now rewrite <- (is_perm_length n p Hp).
Qed.

(** X5.  The model over the raw-sum layer is permutation equivariant: on the
    graph [P A P^T] and the features [P X] it returns the rows of its output
    on [A] and [X] permuted by [P], or the same raise. *)
Theorem RawSumGNN_equivariant n p a x input_dim output_dim W b :
  is_perm n p -> square n a -> shape0 x = n ->
  RawSumGNN.forward (RawSumGNN.init input_dim output_dim (permute p a) W b)
    (permute_rows p x)
  = fmap (permute_rows p)
      (RawSumGNN.forward (RawSumGNN.init input_dim output_dim a W b) x).
Proof.
  intros Hp Hsq Hx.
  unfold RawSumGNN.forward, RawSumGNN.init, RawSum.forward, RawSum.init.
  cbn [RawSumGNN.layer RawSum.A RawSum.linear].
  rewrite (matmul_permute n p Hp a x Hsq Hx).
  destruct (matmul a x) as [y|e] eqn:E; cbn [fmap bind]; [|reflexivity].
  assert (Hy : shape0 y = n).
  { destruct (matmul_shape _ _ _ E) as [-> _]. apply Hsq. }
  rewrite (Linear_forward_permute_rows n p Hp _ y Hy).
  destruct (Linear_forward _ y) as [z|e] eqn:Ez; cbn [fmap bind]; [|reflexivity].
  f_equal. apply log_softmax_gather.
  apply (is_perm_gather n); [exact Hp|].
  now rewrite (Linear_forward_shape0 _ _ _ Ez).
Qed.

Lemma RawSumGNN_equivariant_witness :
  is_perm 2 [1; 0]%nat /\ square 2 pair_graph
  /\ shape0 (Tensor 1 [[1]; [2]]) = 2%nat
  /\ RawSumGNN.forward (RawSumGNN.init 1 1 (permute [1; 0]%nat pair_graph) W1 b0)
       (permute_rows [1; 0]%nat (Tensor 1 [[1]; [2]]))
     = fmap (permute_rows [1; 0]%nat)
         (RawSumGNN.forward (RawSumGNN.init 1 1 pair_graph W1 b0)
            (Tensor 1 [[1]; [2]])).
Proof.
  assert (Hsq : square 2 pair_graph) by (split; reflexivity).
  split; [exact is_perm_swap|]. split; [exact Hsq|]. split; [reflexivity|].
  exact (RawSumGNN_equivariant 2 [1; 0]%nat pair_graph (Tensor 1 [[1]; [2]])
           1 1 W1 b0 is_perm_swap Hsq eq_refl).
Defined.

(** The forward pass of the normalised layer on a permuted graph. *)
Lemma Normalized_forward_permute n p a x input_dim output_dim W b :
  is_perm n p -> square n a -> shape0 x = n ->
  (l <- Normalized.init (permute p a) input_dim output_dim (permute p a) W b ;;
   Normalized.forward l (permute_rows p x))
  = fmap (permute_rows p)
      (l <- Normalized.init a input_dim output_dim a W b ;;
       Normalized.forward l x).
Proof.
  intros H Hsq Hx.
  pose proof (square_permute n p H a) as Hsq'.
  rewrite (Normalized_init_char n (permute p a) _ _ _ W b Hsq' (proj1 Hsq')).
  rewrite (Normalized_init_char n a _ _ _ W b Hsq (proj1 Hsq)).
  rewrite (singular_permute n p H a Hsq).
  destruct (singular n a); [reflexivity|].
  cbn [bind]. unfold Normalized.forward.
  cbn [Normalized.adj_norm Normalized.linear].
  rewrite (adj_norm_permute n p H a Hsq).
  set (An := tabulate n n (fun i j => / sqrt (rowsum a i)
                                      * (get a i j + delta i j)
                                      * / sqrt (rowsum a j))).
  assert (HsqA : square n An).
  { split; [apply shape0_tabulate|reflexivity]. }
  rewrite (matmul_permute n p H An x HsqA Hx).
  destruct (matmul An x) as [y|e] eqn:E; cbn [fmap bind]; [|reflexivity].
  apply (Linear_forward_permute_rows n p H).
  destruct (matmul_shape _ _ _ E) as [-> _]. apply HsqA.
Qed.

Lemma Normalized_forward_shape0 l x y :
  Normalized.forward l x = Ok y -> shape0 y = shape0 (Normalized.adj_norm l).
Proof.
  unfold Normalized.forward.
  destruct (matmul _ x) as [x1|e] eqn:E; cbn [bind]; [|discriminate].
  intros H. rewrite (Linear_forward_shape0 _ _ _ H).
  now destruct (matmul_shape _ _ _ E).
Qed.

Lemma Normalized_init_square n adj input_dim output_dim A W b l :
  square n adj -> shape0 A = n ->
  Normalized.init adj input_dim output_dim A W b = Ok l ->
  square n (Normalized.adj_norm l).
Proof.
  intros Hsq HA. rewrite (Normalized_init_char n) by assumption.
  destruct (singular n adj); [discriminate|].
  intros E. injection E as <-. cbn [Normalized.adj_norm].
  split; [apply shape0_tabulate|reflexivity].
Qed.

(** X6.  The model over the normalised layer, built for a graph bound to the
    global [adj] and passed as [A], is permutation equivariant, raises
    included: the log-probabilities of node [nth i p] become those of node
    [i] of the permuted graph. *)
Theorem NormalizedGNN_equivariant n p a x input_dim output_dim W b :
  is_perm n p -> square n a -> nonneg a -> shape0 x = n ->
  (g <- NormalizedGNN.init (permute p a) input_dim output_dim (permute p a) W b ;;
   NormalizedGNN.forward g (permute_rows p x))
  = fmap (permute_rows p)
      (g <- NormalizedGNN.init a input_dim output_dim a W b ;;
       NormalizedGNN.forward g x).
Proof.
  intros Hp Hsq _ Hx.
  pose proof (Normalized_forward_permute n p a x input_dim output_dim W b
                Hp Hsq Hx) as Hl.
  unfold NormalizedGNN.init, NormalizedGNN.forward.
  destruct (Normalized.init (permute p a) _ _ _ W b) as [l'|e'];
    destruct (Normalized.init a _ _ _ W b) as [l|e] eqn:El;
    cbn [bind fmap NormalizedGNN.layer] in *; try discriminate.
  - rewrite Hl.
    destruct (Normalized.forward l x) as [y|e] eqn:E; cbn [fmap bind];
      [|reflexivity].
    f_equal. apply log_softmax_gather. apply (is_perm_gather n); [exact Hp|].
    rewrite (Normalized_forward_shape0 _ _ _ E).
    apply (Normalized_init_square n a input_dim output_dim a W b l Hsq
             (proj1 Hsq) El).
  - now rewrite Hl.
  - destruct (Normalized.forward l x); cbn [fmap bind] in *;
      [discriminate | exact Hl].
  - exact Hl.
Qed.

Lemma NormalizedGNN_equivariant_witness :
  is_perm 2 [1; 0]%nat /\ square 2 pair_graph /\ nonneg pair_graph
  /\ shape0 (Tensor 1 [[1]; [2]]) = 2%nat
  /\ (g <- NormalizedGNN.init (permute [1; 0]%nat pair_graph) 1 1
            (permute [1; 0]%nat pair_graph) W1 b0 ;;
      NormalizedGNN.forward g (permute_rows [1; 0]%nat (Tensor 1 [[1]; [2]])))
     = fmap (permute_rows [1; 0]%nat)
         (g <- NormalizedGNN.init pair_graph 1 1 pair_graph W1 b0 ;;
          NormalizedGNN.forward g (Tensor 1 [[1]; [2]])).
Proof.
  assert (Hsq : square 2 pair_graph) by (split; reflexivity).
  assert (Hnn : nonneg pair_graph) by exact (zero_one_nonneg _ pair_graph_zero_one).
  split; [exact is_perm_swap|]. split; [exact Hsq|]. split; [exact Hnn|].
  split; [reflexivity|].
  exact (NormalizedGNN_equivariant 2 [1; 0]%nat pair_graph (Tensor 1 [[1]; [2]])
           1 1 W1 b0 is_perm_swap Hsq Hnn eq_refl).
Defined.

(** ** When the normalised layer can be built *)

Lemma singular_iff n a :
  square n a -> nonneg a ->
  singular n a = true <-> exists i, (i < n)%nat /\ rowsum a i = 0.
Proof.
  intros Hsq Hnn. split.
  - unfold singular. intros H. apply existsb_exists in H.
    destruct H as [i [Hi Hz]]. apply in_seq in Hi. exists i. split; [lia|].
    unfold is_zero in Hz. destruct (Req_dec_T _ 0) as [E|]; [|discriminate].
    apply sqrt_eq_0; [|exact E]. apply (rowsum_nonneg n); auto; lia.
  - intros [i [Hi Hz]]. now apply (singular_true n a i).
Qed.

(** X7.  For a square adjacency matrix with non-negative entries, bound to
    the global [adj], the constructor of the normalised layer raises on a
    singular matrix exactly when some node has degree 0 (an all-zero row);
    otherwise it returns a layer whose [adj_norm] has the entry
    [(adj + I)[i][j] / (sqrt d_i * sqrt d_j)], [d_i] being the sum of row
    [i] of [adj]. *)
Theorem Normalized_init_defined_iff n adj input_dim output_dim A W b :
  square n adj -> nonneg adj -> shape0 A = n ->
  (Normalized.init adj input_dim output_dim A W b = Err SingularMatrix
   <-> exists i, (i < n)%nat /\ rowsum adj i = 0)
  /\ ((forall i, (i < n)%nat -> rowsum adj i <> 0) ->
      exists l,
        Normalized.init adj input_dim output_dim A W b = Ok l
        /\ square n (Normalized.adj_norm l)
        /\ forall i j, (i < n)%nat -> (j < n)%nat ->
             get (Normalized.adj_norm l) i j
             = (get adj i j + delta i j)
               / (sqrt (rowsum adj i) * sqrt (rowsum adj j))).
Proof.
  intros Hsq Hnn HA.
  rewrite (Normalized_init_char n) by assumption.
  pose proof (singular_iff n adj Hsq Hnn) as Hs.
  split.
  - destruct (singular n adj).
    + split; [intros _; now apply Hs | reflexivity].
    + split; [discriminate|]. intros H. apply Hs in H. discriminate.
  - intros Hnz. destruct (singular n adj).
    + destruct (proj1 Hs eq_refl) as [i [Hi Hz]]. elim (Hnz i Hi Hz).
    + eexists. split; [reflexivity|]. cbn [Normalized.adj_norm]. split.
      * split; [apply shape0_tabulate|reflexivity].
      * intros i j Hi Hj. rewrite get_tabulate by assumption.
        assert (Hp : forall k, (k < n)%nat -> sqrt (rowsum adj k) <> 0).
        { intros k Hk E. apply (Hnz k Hk). apply sqrt_eq_0; [|exact E].
          now apply (rowsum_nonneg n). }
        field. split; apply Hp; assumption.
Qed.

Lemma Normalized_init_defined_iff_witness :
  square 2 pair_graph /\ nonneg pair_graph /\ shape0 pair_graph = 2%nat
  /\ (Normalized.init pair_graph 1 1 pair_graph W1 b0 = Err SingularMatrix
      <-> exists i, (i < 2)%nat /\ rowsum pair_graph i = 0)
  /\ ((forall i, (i < 2)%nat -> rowsum pair_graph i <> 0) ->
      exists l,
        Normalized.init pair_graph 1 1 pair_graph W1 b0 = Ok l
        /\ square 2 (Normalized.adj_norm l)
        /\ forall i j, (i < 2)%nat -> (j < 2)%nat ->
             get (Normalized.adj_norm l) i j
             = (get pair_graph i j + delta i j)
               / (sqrt (rowsum pair_graph i) * sqrt (rowsum pair_graph j))).
Proof.
  assert (Hsq : square 2 pair_graph) by (split; reflexivity).
  assert (Hnn : nonneg pair_graph) by exact (zero_one_nonneg _ pair_graph_zero_one).
  split; [exact Hsq|]. split; [exact Hnn|]. split; [reflexivity|].
  exact (Normalized_init_defined_iff 2 pair_graph 1 1 pair_graph W1 b0
           Hsq Hnn eq_refl).
Defined.

(** X8.  The constructor of the normalised layer compares the number of rows
    of its argument [A] with the global [adj] only through the sum
    [adj + torch.eye(A.shape[0])]: a different number of rows raises a shape
    error, unless [A] has a single row.  Then the 1 x 1 identity is
    broadcast, so that 1 is added to every entry of [adj], not to its
    diagonal: the constructor raises on a singular matrix when some row of
    [adj] sums to 0, and when every row sum is positive it returns a layer
    with the entries [(adj[i][j] + 1) / (sqrt d_i * sqrt d_j)]. *)
Theorem Normalized_init_row_count n adj input_dim output_dim A W b :
  square n adj -> n <> 1%nat -> shape0 A <> n ->
  (shape0 A <> 1%nat ->
   Normalized.init adj input_dim output_dim A W b = Err ShapeError)
  /\ (shape0 A = 1%nat ->
      ((exists i, (i < n)%nat /\ rowsum adj i = 0) ->
       Normalized.init adj input_dim output_dim A W b = Err SingularMatrix)
      /\ ((forall i, (i < n)%nat -> 0 < rowsum adj i) ->
          exists l,
            Normalized.init adj input_dim output_dim A W b = Ok l
            /\ square n (Normalized.adj_norm l)
            /\ forall i j, (i < n)%nat -> (j < n)%nat ->
                 get (Normalized.adj_norm l) i j
                 = / sqrt (rowsum adj i) * (get adj i j + 1)
                   * / sqrt (rowsum adj j))).
Proof.
  intros [H0 H1] Hn HA. unfold Normalized.init, tadd.
  assert (E0 : shape0 (eye (shape0 A)) = shape0 A) by apply shape0_tabulate.
  assert (E1 : shape1 (eye (shape0 A)) = shape0 A) by reflexivity.
  rewrite H0, H1, E0, E1. unfold broadcast_dim, bidx.
  destruct (Nat.eqb_spec n (shape0 A)) as [E|_]; [congruence|].
  destruct (Nat.eqb_spec n 1) as [E|_]; [contradiction|].
  split.
  - intros HA1. destruct (Nat.eqb_spec (shape0 A) 1); [contradiction|].
    reflexivity.
  - intros HA1. rewrite HA1. cbn [Nat.eqb bind].
    rewrite (tabulate_ext n n _ (fun i j => get adj i j + 1)).
    2:{ intros i j Hi Hj. reflexivity. }
    rewrite (inverse_sqrt_diag n) by (rewrite length_sum_axis1; exact H0).
    rewrite (existsb_ext_in _ (fun i => is_zero (sqrt (rowsum adj i)))).
    2:{ intros i Hi. apply in_seq in Hi. rewrite nth_sum_axis1; [reflexivity|].
        rewrite H0. lia. }
    fold (singular n adj). split.
    + intros [i [Hi Hz]]. now rewrite (singular_true n adj i Hi Hz).
    + intros Hpos. rewrite (singular_false n adj Hpos). cbn [bind].
      rewrite (tabulate_ext n n _ (fun i j => / sqrt (rowsum adj i) * delta i j)).
      2:{ intros i j Hi Hj. rewrite nth_sum_axis1; [reflexivity|].
          rewrite H0. lia. }
      pose proof (matmul_diag_both n (fun i => / sqrt (rowsum adj i))
                    (fun i j => get adj i j + 1)) as Hm.
      destruct (matmul _ _) as [t|e]; cbn [bind] in *; [|discriminate].
      rewrite Hm. cbn [bind]. eexists. split; [reflexivity|].
      cbn [Normalized.adj_norm]. split.
      * split; [apply shape0_tabulate|reflexivity].
      * intros i j Hi Hj. now rewrite get_tabulate.
Qed.

Lemma pair_graph_rowsum i : (i < 2)%nat -> rowsum pair_graph i = 1.
Proof. intros Hi. index_cases i; eval_tensor; lra. Qed.

(** The three branches: on two connected nodes [A = eye 1] is accepted and
    the layer has 1 added to every entry of [adj]; three rows against two
    raise a shape error; a single row on a graph with an isolated node raises
    on the singular degree matrix. *)
Lemma Normalized_init_row_count_witness :
  (square 2 pair_graph /\ 2%nat <> 1%nat /\ shape0 (eye 1) <> 2%nat
   /\ shape0 (eye 1) = 1%nat
   /\ (forall i, (i < 2)%nat -> 0 < rowsum pair_graph i)
   /\ exists l,
        Normalized.init pair_graph 1 1 (eye 1) W1 b0 = Ok l
        /\ square 2 (Normalized.adj_norm l)
        /\ forall i j, (i < 2)%nat -> (j < 2)%nat ->
             get (Normalized.adj_norm l) i j
             = / sqrt (rowsum pair_graph i) * (get pair_graph i j + 1)
               * / sqrt (rowsum pair_graph j))
  /\ (shape0 (eye 3) <> 2%nat /\ shape0 (eye 3) <> 1%nat
      /\ Normalized.init pair_graph 1 1 (eye 3) W1 b0 = Err ShapeError)
  /\ (square 3 isolated_graph /\ shape0 (eye 1) <> 3%nat
      /\ (exists i, (i < 3)%nat /\ rowsum isolated_graph i = 0)
      /\ Normalized.init isolated_graph 1 1 (eye 1) W1 b0 = Err SingularMatrix).
Proof.
  assert (Hsq : square 2 pair_graph) by (split; reflexivity).
  assert (H1 : shape0 (eye 1) <> 2%nat) by (cbn; lia).
  assert (H3 : shape0 (eye 3) <> 2%nat) by (cbn; lia).
  assert (H31 : shape0 (eye 3) <> 1%nat) by (cbn; lia).
  assert (Hpos : forall i, (i < 2)%nat -> 0 < rowsum pair_graph i).
  { intros i Hi. rewrite (pair_graph_rowsum i Hi). lra. }
  assert (Hsq3 : square 3 isolated_graph) by (split; reflexivity).
  assert (H13 : shape0 (eye 1) <> 3%nat) by (cbn; lia).
  assert (Hiso : exists i, (i < 3)%nat /\ rowsum isolated_graph i = 0).
  { exists 0%nat. split; [lia|]. eval_tensor. lra. }
  split; [|split].
  - split; [exact Hsq|]. split; [lia|]. split; [exact H1|].
    split; [reflexivity|]. split; [exact Hpos|].
    exact (proj2 (proj2 (Normalized_init_row_count 2 pair_graph 1 1 (eye 1)
                           W1 b0 Hsq ltac:(lia) H1) eq_refl) Hpos).
  - split; [exact H3|]. split; [exact H31|].
    exact (proj1 (Normalized_init_row_count 2 pair_graph 1 1 (eye 3)
                    W1 b0 Hsq ltac:(lia) H3) H31).
  - split; [exact Hsq3|]. split; [exact H13|]. split; [exact Hiso|].
    exact (proj1 (proj2 (Normalized_init_row_count 3 isolated_graph 1 1 (eye 1)
                           W1 b0 Hsq3 ltac:(lia) H13) eq_refl) Hiso).
Defined.

(** ** Regular graphs *)

(** X9.  On a graph whose nodes all have the same degree [d > 0], every row
    of the normalised adjacency of the layer sums to [(d + 1) / d], and the
    aggregation step multiplies features that are the same at every node by
    that factor: the self-loop is added to the matrix, not to the degree. *)
Theorem adj_norm_regular_graph n d a input_dim output_dim W b :
  square n a -> 0 < d -> (forall i, (i < n)%nat -> rowsum a i = d) ->
  exists l,
    Normalized.init a input_dim output_dim a W b = Ok l
    /\ (forall i, (i < n)%nat -> rowsum (Normalized.adj_norm l) i = (d + 1) / d)
    /\ forall x y,
         shape0 x = n ->
         (forall i k, (i < n)%nat -> get x i k = get x 0 k) ->
         matmul (Normalized.adj_norm l) x = Ok y ->
         forall i k, (i < n)%nat -> (k < shape1 x)%nat ->
           get y i k = (d + 1) / d * get x 0 k.
Proof.
  intros Hsq Hd Hreg.
  rewrite (Normalized_init_char n) by (auto; apply Hsq).
  rewrite singular_false by (intros i Hi; rewrite Hreg by exact Hi; exact Hd).
  eexists. split; [reflexivity|]. cbn [Normalized.adj_norm].
  set (An := tabulate n n _).
  pose proof (inv_sqrt_sqr d Hd) as Hs.
  assert (Hent : forall i j, (i < n)%nat -> (j < n)%nat ->
            get An i j = / d * (get a i j + delta i j)).
  { intros i j Hi Hj. unfold An. rewrite get_tabulate by assumption.
    rewrite !Hreg by assumption. rewrite <- Hs. ring. }
  assert (Hrow : forall i (f : nat -> R), (i < n)%nat ->
            (forall j, (j < n)%nat -> f j = f 0%nat) ->
            bigsum n (fun j => get An i j * f j) = (d + 1) / d * f 0%nat).
  { intros i f Hi Hf.
    rewrite (bigsum_ext n _ (fun j => (/ d * f 0%nat) * get a i j
                                      + delta i j * (/ d * f 0%nat))).
    - assert (Hr : bigsum n (fun j => get a i j) = d).
      { destruct Hsq as [_ H1]. rewrite <- (Hreg i Hi). unfold rowsum.
        now rewrite H1. }
      rewrite (bigsum_plus n (fun j => / d * f 0%nat * get a i j)
                 (fun j => delta i j * (/ d * f 0%nat))).
      rewrite (bigsum_scal_l n (/ d * f 0%nat) (fun j => get a i j)), Hr.
      rewrite (bigsum_delta_l n i (fun _ => / d * f 0%nat) Hi).
      field. lra.
    - intros j Hj. rewrite Hent, Hf by assumption. ring. }
  split.
  - intros i Hi. unfold rowsum. change (shape1 An) with n.
    rewrite (bigsum_ext n _ (fun j => get An i j * 1)) by (intros; ring).
    rewrite (Hrow i (fun _ => 1) Hi) by reflexivity. ring.
  - intros x y Hx Hconst Hy i k Hi Hk. unfold matmul in Hy.
    change (shape1 An) with n in Hy. rewrite Hx, Nat.eqb_refl in Hy.
    injection Hy as <-.
    rewrite get_tabulate by (unfold An; rewrite ?shape0_tabulate; assumption).
    apply (Hrow i (fun j => get x j k) Hi).
    intros j Hj. now apply Hconst.
Qed.

Lemma adj_norm_regular_graph_witness :
  square 5 ring_adj /\ 0 < 2 /\ (forall i, (i < 5)%nat -> rowsum ring_adj i = 2)
  /\ exists l,
       Normalized.init ring_adj 1 1 ring_adj W1 b0 = Ok l
       /\ (forall i, (i < 5)%nat ->
             rowsum (Normalized.adj_norm l) i = (2 + 1) / 2)
       /\ forall x y,
            shape0 x = 5%nat ->
            (forall i k, (i < 5)%nat -> get x i k = get x 0 k) ->
            matmul (Normalized.adj_norm l) x = Ok y ->
            forall i k, (i < 5)%nat -> (k < shape1 x)%nat ->
              get y i k = (2 + 1) / 2 * get x 0 k.
Proof.
  assert (Hsq : square 5 ring_adj) by (split; reflexivity).
  assert (Hd : 0 < 2) by lra.
  split; [exact Hsq|]. split; [exact Hd|]. split; [exact ring_rowsum|].
  exact (adj_norm_regular_graph 5 2 ring_adj 1 1 W1 b0 Hsq Hd ring_rowsum).
Defined.

(** ** Dense adjacency: order, symmetry, multiplicity *)

Lemma max_index_Permutation es es' :
  Permutation es es' -> max_index es = max_index es'.
Proof.
  induction 1 as [|e l l' _ IH|e f l|l l' l'' _ IH1 _ IH2].
  - reflexivity.
  - cbn [max_index fold_right]. fold (max_index l) (max_index l'). lia.
  - cbn [max_index fold_right]. fold (max_index l). lia.
  - congruence.
Qed.

Lemma num_nodes_Permutation es es' :
  Permutation es es' -> num_nodes es = num_nodes es'.
Proof.
  intros H. pose proof (max_index_Permutation es es' H) as Hm.
  destruct es as [|e es]; destruct es' as [|e' es'].
  - reflexivity.
  - apply Permutation_nil in H. discriminate.
  - apply Permutation_sym, Permutation_nil in H. discriminate.
  - rewrite !num_nodes_cons. now rewrite Hm.
Qed.

(** X10.  The dense adjacency matrix does not depend on the order in which
    the edges are listed. *)
Theorem to_dense_adj_order_invariant (es es' : list edge) :
  Permutation es es' -> to_dense_adj es = to_dense_adj es'.
Proof.
  intros H. unfold to_dense_adj. rewrite (num_nodes_Permutation es es' H).
  apply tabulate_ext. intros i j _ _.
  apply rsum_Permutation, Permutation_map, H.
Qed.

Lemma to_dense_adj_order_invariant_witness :
  Permutation [(0, 1); (1, 2)]%nat [(1, 2); (0, 1)]%nat
  /\ to_dense_adj [(0, 1); (1, 2)]%nat = to_dense_adj [(1, 2); (0, 1)]%nat.
Proof.
  split; [apply perm_swap|].
  apply (to_dense_adj_order_invariant [(0, 1); (1, 2)]%nat [(1, 2); (0, 1)]%nat).
  apply perm_swap.
Defined.

Lemma edge_eqb_eq (e f : edge) : edge_eqb e f = true <-> e = f.
Proof.
  destruct e as [a b], f as [c d]. unfold edge_eqb. cbn [fst snd].
  rewrite andb_true_iff, !Nat.eqb_eq. split.
  - intros [-> ->]. reflexivity.
  - intros E. injection E as -> ->. auto.
Qed.




Lemma rsum_indicator_absent (es : list edge) (f : edge) :
  ~ In f es -> rsum (map (fun e => if edge_eqb e f then 1 else 0) es) = 0.
Proof.
  induction es as [|e es IH]; intros H; [reflexivity|].
  cbn [map]. unfold rsum in *. cbn [fold_right].
  destruct (edge_eqb e f) eqn:E.
  - apply edge_eqb_eq in E. elim H. now left.
  - rewrite IH; [lra|]. intros Hin. apply H. now right.
Qed.

(** X12.  An edge list without repeated edges gives a 0/1 matrix. *)
Theorem to_dense_adj_zero_one (es : list edge) :
  NoDup es -> zero_one (to_dense_adj es).
Proof.
  intros Hnd i j Hi Hj. unfold to_dense_adj in *.
  rewrite shape0_tabulate in Hi. rewrite shape1_tabulate in Hj.
  rewrite get_tabulate by assumption. clear Hi Hj.
  induction Hnd as [|e es Hnotin Hnd IH]; [left; reflexivity|].
  cbn [map]. unfold rsum in *. cbn [fold_right].
  destruct (edge_eqb e (i, j)) eqn:E.
  - apply edge_eqb_eq in E. subst e. right.
    pose proof (rsum_indicator_absent es (i, j) Hnotin) as Hz.
    unfold rsum in Hz. rewrite Hz. lra.
  - destruct IH as [-> | ->]; [left|right]; lra.
Qed.

Lemma to_dense_adj_zero_one_witness :
  NoDup (undirected ring_edges) /\ zero_one ring_adj.
Proof.
  assert (Hnd : NoDup (undirected ring_edges)).
  { cbv [undirected ring_edges app map fst snd].
    repeat (constructor; [cbn; intuition discriminate|]). constructor. }
  split; [exact Hnd|].
  exact (to_dense_adj_zero_one (undirected ring_edges) Hnd).
Defined.

(** ** The slices that [extract] accepts *)

Lemma subscript_out_of_range ptr k :
  (length ptr <= k)%nat -> subscript ptr k = Err IndexError.
Proof.
  intros H. unfold subscript.
  now rewrite (proj2 (nth_error_None ptr k) H).
Qed.

(** [narrow] with a negative start counts from the end. *)
Lemma narrow_negative_start x s len :
  (0 <= len)%Z -> (s < 0)%Z -> (- Z.of_nat (shape0 x) <= s)%Z ->
  (s + len <= 0)%Z ->
  narrow x s len
  = Ok (Tensor (shape1 x)
          (firstn (Z.to_nat len)
             (skipn (Z.to_nat (s + Z.of_nat (shape0 x))) (rows x)))).
Proof.
  intros Hl Hs Hn He. unfold narrow.
  destruct (Z.ltb_spec len 0); [lia|].
  destruct (Z.leb_spec (- Z.of_nat (shape0 x)) s); [|lia].
  destruct (Z.leb_spec s (Z.of_nat (shape0 x))); [|lia].
  cbn [andb negb].
  destruct (Z.ltb_spec s 0); [|lia].
  destruct (Z.ltb_spec (Z.of_nat (shape0 x) - len) (s + Z.of_nat (shape0 x)));
    [lia|reflexivity].
Qed.

(** X13.  [extract(x, idx, slices)] raises an index error when [idx + 1] is
    not an index of [slices].  Otherwise, for [x] with [n] rows and at least
    one column, it returns a row exactly when
    [start = slices[idx] <= end = slices[idx + 1]] and either
    [0 <= start] and [end <= n], or [-n <= start] and [end <= 0]; in the
    second case the rows counted from the end, [start + n] to [end + n - 1],
    are summed. *)
Theorem extract_defined_iff x idx slices :
  (0 < shape1 x)%nat ->
  ((length slices <= S idx)%nat -> extract x idx slices = Err IndexError)
  /\ ((S idx < length slices)%nat ->
      let s := ptr_at slices idx in
      let e := ptr_at slices (S idx) in
      let n := Z.of_nat (shape0 x) in
      ((exists t, extract x idx slices = Ok t)
       <-> (s <= e /\ ((0 <= s /\ e <= n) \/ (- n <= s /\ e <= 0)))%Z)
      /\ ((s < 0 /\ - n <= s /\ s <= e /\ e <= 0)%Z ->
          extract x idx slices
          = Ok (Tensor (shape1 x)
                  [rows_sum x (Z.to_nat (s + n)) (Z.to_nat (e + n))]))).
Proof.
  intros Hd. split.
  - intros Hlen. unfold extract.
    destruct (Nat.lt_ge_cases idx (length slices)) as [Hlt|Hge].
    + rewrite subscript_nth by exact Hlt. cbn [bind].
      rewrite subscript_out_of_range by lia. reflexivity.
    + rewrite subscript_out_of_range by lia. reflexivity.
  - intros Hidx s e n.
    assert (Hneg : (s < 0 /\ - n <= s /\ s <= e /\ e <= 0)%Z ->
              extract x idx slices
              = Ok (Tensor (shape1 x)
                      [rows_sum x (Z.to_nat (s + n)) (Z.to_nat (e + n))])).
    { intros (Hs & Hn & Hse & He). unfold extract.
      rewrite subscript_nth by lia. cbn [bind].
      replace (idx + 1)%nat with (S idx) by lia.
      rewrite subscript_nth by lia. cbn [bind]. fold s e.
      rewrite narrow_negative_start by (fold n; lia). cbn [bind]. fold n.
      rewrite sum_axis0_slice by lia.
      replace (Z.to_nat (s + n) + Z.to_nat (e - s))%nat
        with (Z.to_nat (e + n)) by lia.
      unfold reshape_row. now rewrite length_rows_sum. }
    split; [|exact Hneg]. split.
    + intros [t Ht].
      destruct (Z_lt_le_dec e s) as [H1|H1].
      { destruct (extract_err x idx slices Hidx) as [err He];
          [left; exact H1 | rewrite He in Ht; discriminate]. }
      split; [exact H1|].
      destruct (Z_lt_le_dec s 0) as [H2|H2].
      * right. destruct (Z_lt_le_dec s (- n)) as [H3|H3].
        { destruct (extract_err x idx slices Hidx) as [err He];
            [right; right; left; exact H3 | rewrite He in Ht; discriminate]. }
        split; [exact H3|].
        destruct (Z_lt_le_dec 0 e) as [H4|H4]; [|exact H4].
        exfalso. revert Ht. unfold extract.
        rewrite subscript_nth by lia. cbn [bind].
        replace (idx + 1)%nat with (S idx) by lia.
        rewrite subscript_nth by lia. cbn [bind]. fold s e. unfold narrow.
        fold n.
        destruct (Z.ltb_spec (e - s) 0); [discriminate|].
        destruct (Z.leb_spec (- n) s); [|discriminate].
        destruct (Z.leb_spec s n); [|discriminate]. cbn [andb negb].
        destruct (Z.ltb_spec s 0); [|lia].
        destruct (Z.ltb_spec (n - (e - s)) (s + n)); [discriminate|lia].
      * left. split; [exact H2|].
        destruct (Z_lt_le_dec n e) as [H4|H4]; [|exact H4].
        destruct (extract_err x idx slices Hidx) as [err He];
          [right; right; right; left; exact H4 | rewrite He in Ht; discriminate].
    + intros [Hse [[Hs He] | [Hs He]]].
      * eexists. apply extract_ok; fold s e n; lia.
      * destruct (Z_lt_le_dec s 0) as [H2|H2].
        -- eexists. apply Hneg. lia.
        -- eexists. apply extract_ok; fold s e n; lia.
Qed.

Lemma extract_defined_iff_witness :
  (0 < shape1 x5)%nat
  /\ ((length [-2; 0]%Z <= 1)%nat -> extract x5 0 [-2; 0]%Z = Err IndexError)
  /\ ((1 < length [-2; 0]%Z)%nat ->
      let s := ptr_at [-2; 0]%Z 0 in
      let e := ptr_at [-2; 0]%Z 1 in
      let n := Z.of_nat (shape0 x5) in
      ((exists t, extract x5 0 [-2; 0]%Z = Ok t)
       <-> (s <= e /\ ((0 <= s /\ e <= n) \/ (- n <= s /\ e <= 0)))%Z)
      /\ ((s < 0 /\ - n <= s /\ s <= e /\ e <= 0)%Z ->
          extract x5 0 [-2; 0]%Z
          = Ok (Tensor (shape1 x5)
                  [rows_sum x5 (Z.to_nat (s + n)) (Z.to_nat (e + n))]))).
Proof.
  assert (Hd : (0 < shape1 x5)%nat) by (cbn; lia).
  split; [exact Hd|].
  exact (extract_defined_iff x5 0 [-2; 0]%Z Hd).
Defined.

(** ** Pooling a valid batch *)

Lemma pool_closed_form x ptr B :
  (0 < B)%nat -> (0 < shape1 x)%nat -> valid_ptr (shape0 x) B ptr ->
  pool x ptr
  = Ok (Tensor (shape1 x)
          (map (fun k => rows_sum x (Z.to_nat (ptr_at ptr k))
                           (Z.to_nat (ptr_at ptr (S k))))
               (seq 0 B))).
Proof.
  intros HB Hd (Hlen & Hmono & H0 & Hn).
  set (v := fun k => rows_sum x (Z.to_nat (ptr_at ptr k))
                       (Z.to_nat (ptr_at ptr (S k)))).
  assert (Hex : forall k, In k (seq 0 B) ->
            extract x k ptr = Ok ((fun k => Tensor (shape1 x) [v k]) k)).
  { intros k Hk. apply in_seq in Hk.
    pose proof (ptr_monotone ptr B Hmono 0 k ltac:(lia) ltac:(lia)).
    pose proof (ptr_monotone ptr B Hmono k (S k) ltac:(lia) ltac:(lia)).
    pose proof (ptr_monotone ptr B Hmono (S k) B ltac:(lia) ltac:(lia)).
    apply extract_ok; lia. }
  unfold pool. rewrite Hlen. replace (S B - 1)%nat with B by lia.
  rewrite (mapM_ok _ _ _ Hex). cbn [bind].
  apply concat_rows. destruct B; [lia|discriminate].
Qed.

Section WithinGraphs.

Variables (n B : nat) (p : list nat) (ptr : list Z) (x : tensor).
Hypothesis Hp : is_perm n p.
Hypothesis Hx : shape0 x = n.
Hypothesis Hptr : valid_ptr n B ptr.
Hypothesis Hseg : within_graphs B ptr p.

Lemma ptr_bounds k :
  (k <= B)%nat -> (0 <= ptr_at ptr k <= Z.of_nat n)%Z.
Proof.
  destruct Hptr as (Hlen & Hmono & H0 & Hn). intros Hk.
  pose proof (ptr_monotone ptr B Hmono 0 k ltac:(lia) Hk).
  pose proof (ptr_monotone ptr B Hmono k B Hk ltac:(lia)). lia.
Qed.

(** [p] permutes the indices of graph [k] among themselves. *)
Lemma segment_Permutation k :
  (k < B)%nat ->
  let a := Z.to_nat (ptr_at ptr k) in
  let b := Z.to_nat (ptr_at ptr (S k)) in
  Permutation (map (fun i => nth i p 0%nat) (seq a (b - a))) (seq a (b - a)).
Proof.
  intros Hk a b.
  pose proof (ptr_bounds k ltac:(lia)) as Ha.
  pose proof (ptr_bounds (S k) ltac:(lia)) as Hb.
  apply Permutation_map_same_l.
  - apply NoDup_map_NoDup_ForallPairs; [|apply seq_NoDup].
    intros i j Hi Hj E. apply in_seq in Hi, Hj.
    apply (is_perm_inj n p Hp i j); [lia | lia | exact E].
  - intros y Hy. apply in_map_iff in Hy. destruct Hy as [i [<- Hi]].
    apply in_seq in Hi. apply in_seq.
    pose proof (Hseg k i Hk ltac:(lia)). lia.
Qed.

Lemma rows_sum_within_graph k :
  (k < B)%nat ->
  rows_sum (permute_rows p x) (Z.to_nat (ptr_at ptr k))
    (Z.to_nat (ptr_at ptr (S k)))
  = rows_sum x (Z.to_nat (ptr_at ptr k)) (Z.to_nat (ptr_at ptr (S k))).
Proof.
  intros Hk. unfold rows_sum.
  change (shape1 (permute_rows p x)) with (shape1 x).
  pose proof (ptr_bounds (S k) ltac:(lia)) as Hb.
  apply map_ext_in. intros j Hj. apply in_seq in Hj.
  set (a := Z.to_nat (ptr_at ptr k)). set (b := Z.to_nat (ptr_at ptr (S k))).
  transitivity (rsum (map (fun i => get x i j)
                        (map (fun i => nth i p 0%nat) (seq a (b - a))))).
  - rewrite map_map. f_equal. apply map_ext_in. intros i Hi. apply in_seq in Hi.
    apply get_permute_rows; [|lia].
    rewrite (is_perm_length n p Hp). unfold b in Hi. lia.
  - apply rsum_Permutation, Permutation_map. now apply segment_Permutation.
Qed.

End WithinGraphs.

(** X14.  The pooled rows of a valid batch do not depend on the order of the
    nodes within each graph: permuting the rows of [x] by a permutation that
    keeps every node within its graph leaves the result unchanged. *)
Theorem pool_invariant_within_graphs n B p ptr x :
  is_perm n p -> shape0 x = n -> valid_ptr n B ptr -> within_graphs B ptr p ->
  (0 < B)%nat -> (0 < shape1 x)%nat ->
  pool (permute_rows p x) ptr = pool x ptr.
Proof.
  intros Hp Hx Hptr Hseg HB Hd.
  rewrite (pool_closed_form x ptr B HB Hd) by (rewrite Hx; exact Hptr).
  rewrite (pool_closed_form (permute_rows p x) ptr B HB Hd).
  2:{ rewrite shape0_permute_rows, (is_perm_length n p Hp). exact Hptr. }
  f_equal. f_equal. apply map_ext_in. intros k Hk. apply in_seq in Hk.
  apply (rows_sum_within_graph n B p ptr x Hp Hx Hptr Hseg). lia.
Qed.

Lemma pool_invariant_within_graphs_witness :
  is_perm 5 [1; 0; 2; 4; 3]%nat /\ shape0 x5 = 5%nat
  /\ valid_ptr 5 2 [0; 2; 5]%Z /\ within_graphs 2 [0; 2; 5]%Z [1; 0; 2; 4; 3]%nat
  /\ (0 < 2)%nat /\ (0 < shape1 x5)%nat
  /\ pool (permute_rows [1; 0; 2; 4; 3]%nat x5) [0; 2; 5]%Z
     = pool x5 [0; 2; 5]%Z.
Proof.
  assert (Hp : is_perm 5 [1; 0; 2; 4; 3]%nat).
  { unfold is_perm. cbn [seq].
    apply perm_trans with [0; 1; 2; 4; 3]%nat; [apply perm_swap|].
    do 3 apply perm_skip. apply perm_swap. }
  assert (Hv : valid_ptr 5 2 [0; 2; 5]%Z).
  { split; [reflexivity|]. split; [|split; reflexivity].
    intros k Hk. destruct k as [|[|k]]; cbn; lia. }
  assert (Hs : within_graphs 2 [0; 2; 5]%Z [1; 0; 2; 4; 3]%nat).
  { intros k i Hk Hi. destruct k as [|[|k]]; [| |lia]; cbn in Hi.
    - destruct i as [|[|i]]; cbn; lia.
    - destruct i as [|[|[|[|[|i]]]]]; cbn; lia. }
  assert (Hd : (0 < shape1 x5)%nat) by (cbn; lia).
  split; [exact Hp|]. split; [reflexivity|]. split; [exact Hv|].
  split; [exact Hs|]. split; [lia|]. split; [exact Hd|].
  exact (pool_invariant_within_graphs 5 2 [1; 0; 2; 4; 3]%nat [0; 2; 5]%Z x5
           Hp eq_refl Hv Hs ltac:(lia) Hd).
Defined.

(** ** Signs through the pooling *)

Lemma Forall_firstn {T : Type} (P : T -> Prop) k l :
  Forall P l -> Forall P (firstn k l).
Proof.
  revert l. induction k as [|k IH]; intros l H; [constructor|].
  destruct H as [|a l Ha Hl]; [constructor|]. cbn [firstn].
  constructor; [exact Ha|now apply IH].
Qed.

Lemma Forall_skipn {T : Type} (P : T -> Prop) k l :
  Forall P l -> Forall P (skipn k l).
Proof.
  revert l. induction k as [|k IH]; intros l H; [exact H|].
  destruct H as [|a l Ha Hl]; [constructor|]. cbn [skipn]. now apply IH.
Qed.

Lemma get_rows_nonneg t i j : rows_nonneg t -> 0 <= get t i j.
Proof.
  intros H. unfold get.
  assert (Hr : Forall (fun y => 0 <= y) (nth i (rows t) [])).
  { destruct (Nat.lt_ge_cases i (length (rows t))) as [Hi|Hi].
    - unfold rows_nonneg in H. rewrite Forall_forall in H. now apply H, nth_In.
    - rewrite nth_overflow by exact Hi. constructor. }
  destruct (Nat.lt_ge_cases j (length (nth i (rows t) []))) as [Hj|Hj].
  - rewrite Forall_forall in Hr. now apply Hr, nth_In.
  - rewrite nth_overflow by exact Hj. lra.
Qed.

Lemma narrow_rows_nonneg x s len t :
  rows_nonneg x -> narrow x s len = Ok t -> rows_nonneg t.
Proof.
  intros H. unfold narrow.
  destruct (len <? 0)%Z; [discriminate|].
  destruct (negb _); [discriminate|].
  destruct (_ <? _)%Z; [discriminate|].
  intros E. injection E as <-. unfold rows_nonneg. cbn [rows].
  now apply Forall_firstn, Forall_skipn.
Qed.

Lemma extract_rows_nonneg x idx ptr t :
  rows_nonneg x -> extract x idx ptr = Ok t -> rows_nonneg t.
Proof.
  intros H. unfold extract.
  destruct (subscript ptr idx) as [s|]; cbn [bind]; [|discriminate].
  destruct (subscript ptr (idx + 1)) as [e|]; cbn [bind]; [|discriminate].
  destruct (narrow x s (e - s)) as [t'|] eqn:En; cbn [bind]; [|discriminate].
  pose proof (narrow_rows_nonneg _ _ _ _ H En) as Ht'.
  unfold reshape_row.
  intros E. injection E as <-. unfold rows_nonneg. cbn [rows].
  constructor; [|constructor]. unfold sum_axis0. apply Forall_forall.
  intros y Hy. apply in_map_iff in Hy. destruct Hy as [j [<- _]].
  apply bigsum_nonneg. intros i _. now apply get_rows_nonneg.
Qed.

Lemma mapM_Forall {T U : Type} (f : T -> result U) (P : U -> Prop) l bs :
  (forall a b, f a = Ok b -> P b) -> mapM f l = Ok bs -> Forall P bs.
Proof.
  intros Hf. revert bs. induction l as [|a l IH]; intros bs; cbn [mapM].
  - intros E. injection E as <-. constructor.
  - destruct (f a) as [b|] eqn:Ea; cbn [bind]; [|discriminate].
    destruct (mapM f l) as [bs'|]; cbn [bind]; [|discriminate].
    intros E. injection E as <-. constructor; [now apply (Hf a)|now apply IH].
Qed.

Lemma concat_rows_nonneg ts t :
  Forall rows_nonneg ts -> concat ts = Ok t -> rows_nonneg t.
Proof.
  intros H.
  assert (Hall : Forall (Forall (fun y => 0 <= y)) (flat_map rows ts)).
  { induction H as [|u us Hu Hus IH]; [constructor|].
    cbn [flat_map]. apply Forall_app. split; assumption. }
  unfold concat. destruct ts as [|t0 ts']; [discriminate|].
  destruct (forallb _ ts'); [|discriminate].
  intros E. injection E as <-. exact Hall.
Qed.

Lemma tmap_relu_nonneg x : rows_nonneg (tmap relu x).
Proof.
  unfold rows_nonneg, tmap. cbn [rows]. apply Forall_forall.
  intros r Hr. apply in_map_iff in Hr. destruct Hr as [r' [<- _]].
  apply Forall_forall. intros y Hy. apply in_map_iff in Hy.
  destruct Hy as [y' [<- _]]. apply Rmax_l.
Qed.

(** X15.  Whatever the boundary array, what the graph-level model pools
    after its [relu] has no negative entry. *)
Theorem pool_relu_nonneg x ptr t :
  pool (tmap relu x) ptr = Ok t -> forall i j, 0 <= get t i j.
Proof.
  unfold pool. intros H i j.
  destruct (mapM _ _) as [ts|] eqn:E; cbn [bind] in H; [|discriminate].
  apply get_rows_nonneg. apply (concat_rows_nonneg ts); [|exact H].
  apply (mapM_Forall _ rows_nonneg _ _ (fun idx b Hb =>
           extract_rows_nonneg _ idx ptr b (tmap_relu_nonneg x) Hb) E).
Qed.

Lemma shape1_tmap f t : shape1 (tmap f t) = shape1 t.
Proof. reflexivity. Qed.

Lemma pool_relu_nonneg_witness :
  exists t, pool (tmap relu x5) [0; 2; 5]%Z = Ok t
            /\ forall i j, 0 <= get t i j.
Proof.
  assert (Hv : valid_ptr (shape0 (tmap relu x5)) 2 [0; 2; 5]%Z).
  { split; [reflexivity|]. split; [|split; reflexivity].
    intros k Hk. destruct k as [|[|k]]; cbn; lia. }
  assert (Hd : (0 < shape1 (tmap relu x5))%nat) by (cbn; lia).
  pose proof (pool_closed_form (tmap relu x5) [0; 2; 5]%Z 2 ltac:(lia) Hd Hv)
    as Hc.
  eexists. split; [exact Hc|].
  exact (pool_relu_nonneg x5 [0; 2; 5]%Z _ Hc).
Defined.

(** ** The graph-level model *)

Lemma length_concat_rows (f : R -> R) n m g :
  length (List.concat (rows (tmap f (tabulate n m g)))) = (n * m)%nat.
Proof.
  unfold tmap, tabulate. cbn [rows]. rewrite map_map.
  rewrite <- (length_seq n 0) at 2.
  induction (seq 0 n) as [|i l IH].
  - reflexivity.
  - cbn [map List.concat length]. rewrite length_app, IH.
    now rewrite !length_map, length_seq.
Qed.

(** X16.  The forward pass of the graph-level model passes on a raise of its
    graph layer; on a valid batch of [B >= 1] graphs it raises a shape error
    when the graph layer does not return [mid_dim] columns, and otherwise
    returns [B * output_dim] numbers, one per graph for [output_dim = 1]. *)
Theorem GraphLevel_forward_one_output_per_graph
    input_dim mid_dim output_dim graph_layer W b x edge_index ptr B :
  (0 < B)%nat ->
  (forall e, graph_layer x edge_index = Err e ->
     GraphLevel.forward
       (GraphLevel_init input_dim mid_dim output_dim graph_layer W b)
       x edge_index ptr = Err e)
  /\ (forall x1,
        graph_layer x edge_index = Ok x1 ->
        (0 < shape1 x1)%nat -> valid_ptr (shape0 x1) B ptr ->
        (shape1 x1 <> mid_dim ->
         GraphLevel.forward
           (GraphLevel_init input_dim mid_dim output_dim graph_layer W b)
           x edge_index ptr = Err ShapeError)
        /\ (shape1 x1 = mid_dim ->
            exists v,
              GraphLevel.forward
                (GraphLevel_init input_dim mid_dim output_dim graph_layer W b)
                x edge_index ptr = Ok v
              /\ length v = (B * output_dim)%nat)).
Proof.
  intros HB. unfold GraphLevel.forward, GraphLevel_init.
  cbn [GraphLevel.graph_layer GraphLevel.linear]. split.
  - intros e He. now rewrite He.
  - intros x1 Hx1 Hd Hv. rewrite Hx1. cbn [bind].
    rewrite (pool_closed_form (tmap relu x1) ptr B HB)
      by (rewrite ?shape1_tmap, ?shape0_tmap; assumption).
    cbn [bind]. unfold Linear_forward.
    cbn [in_features out_features weight bias shape1].
    change (shape1 (tmap relu x1)) with (shape1 x1).
    split; intros Hm.
    + destruct (Nat.eqb_spec (shape1 x1) mid_dim); [contradiction|reflexivity].
    + rewrite Hm, Nat.eqb_refl. cbn [bind]. eexists. split; [reflexivity|].
      rewrite length_concat_rows. f_equal.
      unfold shape0. cbn [rows]. now rewrite length_map, length_seq.
Qed.

Lemma GraphLevel_forward_one_output_per_graph_witness :
  (0 < 2)%nat /\ (0 < shape1 x5)%nat /\ valid_ptr (shape0 x5) 2 [0; 2; 5]%Z
  /\ exists v,
       GraphLevel.forward (GraphLevel_init 1 1 1 (fun x _ => Ok x) W1 b0)
         x5 [] [0; 2; 5]%Z = Ok v
       /\ length v = (2 * 1)%nat.
Proof.
  assert (Hd : (0 < shape1 x5)%nat) by (cbn; lia).
  assert (Hv : valid_ptr (shape0 x5) 2 [0; 2; 5]%Z).
  { split; [reflexivity|]. split; [|split; reflexivity].
    intros k Hk. destruct k as [|[|k]]; cbn; lia. }
  split; [lia|]. split; [exact Hd|]. split; [exact Hv|].
  apply (proj2 (proj2 (GraphLevel_forward_one_output_per_graph 1 1 1
                         (fun x _ => Ok x) W1 b0 x5 [] [0; 2; 5]%Z 2 ltac:(lia))
                  x5 eq_refl Hd Hv)).
  reflexivity.
Defined.

(** ** Validation accuracy *)

Lemma num_correct_same_length y_hat y :
  length y_hat = length y ->
  exists c, num_correct y_hat y = Ok c
            /\ (c <= length y)%nat
            /\ (c = length y <-> y_hat = y).
Proof.
  intros Hlen. unfold num_correct. rewrite Hlen, broadcast_dim_same.
  cbn [bind]. eexists. split; [reflexivity|].
  set (f := fun i => Nat.eqb (nth (bidx (length y) i) y_hat 0%nat)
                             (nth (bidx (length y) i) y 0%nat)).
  split.
  - rewrite <- (length_seq (length y) 0) at 2. apply filter_length_le.
  - split.
    + intros Hc.
      assert (Hall : forallb f (seq 0 (length y)) = true).
      { apply filter_length_forallb. now rewrite length_seq. }
      rewrite forallb_forall in Hall.
      apply nth_ext with (d := 0%nat) (d' := 0%nat); [exact Hlen|].
      intros i Hi. rewrite Hlen in Hi.
      specialize (Hall i ltac:(apply in_seq; lia)). unfold f in Hall.
      rewrite bidx_lt in Hall by exact Hi. now apply Nat.eqb_eq.
    + intros ->. rewrite forallb_filter_id; [apply length_seq|].
      apply forallb_forall. intros i _. apply Nat.eqb_refl.
Qed.

Lemma length_filter_mask {T : Type} (l : list T) :
  forall mask, length mask = length l ->
    length (filter snd (combine l mask)) = length (filter (fun b => b) mask).
Proof.
  induction l as [|a l IH]; intros [|b mask] H; try discriminate.
  - reflexivity.
  - cbn [combine filter snd]. destruct b; cbn [length];
      rewrite IH by (cbn in H; lia); reflexivity.
Qed.

Lemma length_filter_true mask :
  In true mask -> (0 < length (filter (fun b : bool => b) mask))%nat.
Proof.
  induction mask as [|b mask IH]; intros H; [contradiction|].
  cbn [filter]. destruct b; cbn [length]; [lia|].
  destruct H as [H|H]; [discriminate|now apply IH].
Qed.

(** X17.  One evaluation step of the node-level loops: when the mask and the
    labels have one entry per row of the model output, the output has a
    column and the mask keeps a node, the value stored in [val_accuracy] is
    a percentage between 0 and 100, and it is 100 exactly when the first
    largest entry of every kept row is at the label of that row; a mask of
    another length than the labels raises an index error. *)
Theorem val_accuracy_step_percentage out mask y :
  (length mask <> length y -> val_accuracy_step out mask y = Err IndexError)
  /\ (length mask = shape0 out -> length y = shape0 out ->
      (0 < shape1 out)%nat -> In true mask ->
      exists valid_y y_hat a,
        mask_list y mask = Ok valid_y
        /\ (r <- mask_rows out mask ;; max_1_indices r) = Ok y_hat
        /\ val_accuracy_step out mask y = Ok a
        /\ 0 <= a <= 100
        /\ (a = 100 <-> y_hat = valid_y)).
Proof.
  unfold val_accuracy_step. split.
  - intros H. unfold mask_list.
    destruct (Nat.eqb_spec (length mask) (length y)); [contradiction|reflexivity].
  - intros Hm Hy Hd Htrue. unfold mask_list, mask_rows, max_1_indices.
    rewrite Hm, Hy, Nat.eqb_refl. cbn [bind shape1 rows].
    destruct (Nat.eqb_spec (shape1 out) 0) as [E|_]; [lia|]. cbn [bind].
    set (valid_y := map fst (filter snd (combine y mask))).
    set (y_hat := map argmax (map fst (filter snd (combine (rows out) mask)))).
    assert (Hlv : length valid_y = length (filter (fun b : bool => b) mask)).
    { unfold valid_y. rewrite length_map. apply length_filter_mask. lia. }
    assert (Hlh : length y_hat = length valid_y).
    { unfold y_hat. rewrite !length_map, Hlv. apply length_filter_mask.
      unfold shape0 in Hm. lia. }
    pose proof (length_filter_true mask Htrue) as Hpos. rewrite <- Hlv in Hpos.
    destruct (num_correct_same_length y_hat valid_y Hlh) as (c & Hc & Hle & Hiff).
    exists valid_y, y_hat, (100 * (INR c / INR (length valid_y))).
    split; [reflexivity|]. split; [reflexivity|].
    unfold accuracy. rewrite Hc. cbn [bind]. split; [reflexivity|].
    assert (Hn : 0 < INR (length valid_y)) by now apply lt_0_INR.
    assert (Hc0 : 0 <= INR c) by apply pos_INR.
    assert (Hcn : INR c <= INR (length valid_y)) by now apply le_INR.
    assert (Hq : 0 <= INR c / INR (length valid_y) <= 1).
    { split.
      - apply Rmult_le_pos; [exact Hc0|]. left. now apply Rinv_0_lt_compat.
      - apply Rmult_le_reg_r with (INR (length valid_y)); [exact Hn|].
        unfold Rdiv. rewrite Rmult_assoc, Rinv_l by lra. lra. }
    split; [lra|]. rewrite <- Hiff. split.
    + intros Ha. apply INR_eq.
      assert (Hq1 : INR c / INR (length valid_y) = 1) by lra.
      unfold Rdiv in Hq1.
      apply (f_equal (fun r => r * INR (length valid_y))) in Hq1.
      rewrite Rmult_assoc, Rinv_l in Hq1 by lra. lra.
    + intros ->. unfold Rdiv. rewrite Rinv_r by lra. lra.
Qed.

Lemma val_accuracy_step_percentage_witness :
  exists valid_y y_hat a,
    mask_list [0; 0]%nat [true; false] = Ok valid_y
    /\ (r <- mask_rows (ones 2 1) [true; false] ;; max_1_indices r) = Ok y_hat
    /\ val_accuracy_step (ones 2 1) [true; false] [0; 0]%nat = Ok a
    /\ 0 <= a <= 100
    /\ (a = 100 <-> y_hat = valid_y).
Proof.
  apply (proj2 (val_accuracy_step_percentage (ones 2 1) [true; false]
                  [0; 0]%nat)).
  - reflexivity.
  - reflexivity.
  - cbn. lia.
  - now left.
Defined.

(** ** The model over a library layer *)

(** X18.  The model over a library layer passes on a raise of that layer;
    when the layer returns at least one column, the model returns a tensor
    of the same shape whose rows are log-probabilities: entries at most 0
    whose exponentials sum to 1. *)
Theorem LibraryGNN_forward_log_probabilities edge_index self x :
  (forall e, LibraryGNN.layer self x edge_index = Err e ->
     LibraryGNN.forward edge_index self x = Err e)
  /\ (forall x1,
        LibraryGNN.layer self x edge_index = Ok x1 -> (0 < shape1 x1)%nat ->
        exists y,
          LibraryGNN.forward edge_index self x = Ok y
          /\ shape0 y = shape0 x1 /\ shape1 y = shape1 x1
          /\ forall i, (i < shape0 x1)%nat ->
               bigsum (shape1 x1) (fun j => exp (get y i j)) = 1
               /\ forall j, (j < shape1 x1)%nat -> get y i j <= 0).
Proof.
  unfold LibraryGNN.forward. split.
  - intros e He. now rewrite He.
  - intros x1 Hx1 Hd. rewrite Hx1. cbn [bind]. eexists. split; [reflexivity|].
    split; [apply shape0_log_softmax|]. split; [reflexivity|].
    intros i Hi. split.
    + now apply log_softmax_normalised.
    + intros j Hj. now apply log_softmax_nonpos.
Qed.

Lemma LibraryGNN_forward_log_probabilities_witness :
  exists y,
    LibraryGNN.forward [] (LibraryGNN.mkGNN 1 1 (fun x _ => Ok x)) x5 = Ok y
    /\ shape0 y = shape0 x5 /\ shape1 y = shape1 x5
    /\ forall i, (i < shape0 x5)%nat ->
         bigsum (shape1 x5) (fun j => exp (get y i j)) = 1
         /\ forall j, (j < shape1 x5)%nat -> get y i j <= 0.
Proof.
  apply (proj2 (LibraryGNN_forward_log_probabilities []
                  (LibraryGNN.mkGNN 1 1 (fun x _ => Ok x)) x5) x5 eq_refl).
  cbn. lia.
Defined.
